(** * madmom.io : tempo, event, beat and chord readers and writers

    A shallow embedding of [madmom/io/__init__.py].

    Numbers.  The module works on numpy [float64] arrays.  Values are
    idealised here as exact rationals, extended with the three special
    values that numpy produces instead of raising when a division has a
    zero divisor ([inf], [-inf], [nan]).  Rounding, overflow and the
    sign of zero are not represented.  Data handed to the module by a
    caller or read from a file is finite ([Q]); the conversion to a
    float array ([np.array], [np.asarray], [np.loadtxt]) injects it
    with [Fin].

    Effects.  [np.loadtxt] and [np.savetxt] are external collaborators.
    They are parameters of the development, acting on an abstract world
    and free to fail; the module's functions live in a state-and-exception
    monad over that world. *)

From Stdlib Require Import String Ascii ZArith QArith Lqa Lia Bool List.
From Stdlib Require Import Permutation Sorted.
Import ListNotations.

Local Open Scope string_scope.
Local Open Scope list_scope.
Local Open Scope Q_scope.

(* ------------------------------------------------------------------ *)
(** ** Floating point values *)

Module NpFloat.

Inductive npfloat : Type :=
| Fin (q : Q)
| PInf
| NInf
| NaN.

Definition Qltb (a b : Q) : bool := negb (Qle_bool b a).

Definition is_nan (a : npfloat) : bool :=
  match a with NaN => true | _ => false end.

Definition is_finite (a : npfloat) : bool :=
  match a with Fin _ => true | _ => false end.

(** [-a] *)
Definition fopp (a : npfloat) : npfloat :=
  match a with
  | Fin q => Fin (- q)
  | PInf => NInf
  | NInf => PInf
  | NaN => NaN
  end.

(** [a + b] *)
Definition fadd (a b : npfloat) : npfloat :=
  match a, b with
  | NaN, _ | _, NaN => NaN
  | Fin x, Fin y => Fin (x + y)
  | PInf, NInf | NInf, PInf => NaN
  | PInf, _ | _, PInf => PInf
  | NInf, _ | _, NInf => NInf
  end.

(** [a - b] *)
Definition fsub (a b : npfloat) : npfloat := fadd a (fopp b).

(** The infinity that has the sign of [s * q] for an infinite [s]
    ([pos] tells whether [s] is [inf]); [nan] when [q] is zero. *)
Definition inf_times (pos : bool) (q : Q) : npfloat :=
  if Qeq_bool q 0 then NaN
  else if Bool.eqb pos (Qle_bool 0 q) then PInf else NInf.

(** [a * b] *)
Definition fmul (a b : npfloat) : npfloat :=
  match a, b with
  | NaN, _ | _, NaN => NaN
  | Fin x, Fin y => Fin (x * y)
  | Fin x, PInf | PInf, Fin x => inf_times true x
  | Fin x, NInf | NInf, Fin x => inf_times false x
  | PInf, PInf | NInf, NInf => PInf
  | PInf, NInf | NInf, PInf => NInf
  end.

(** [a / b], numpy semantics: a zero divisor gives [inf], [-inf] or
    [nan] (and a warning), never an exception. *)
Definition fdiv (a b : npfloat) : npfloat :=
  match a, b with
  | NaN, _ | _, NaN => NaN
  | Fin x, Fin y =>
      if Qeq_bool y 0 then
        if Qeq_bool x 0 then NaN
        else if Qle_bool 0 x then PInf else NInf
      else Fin (x / y)
  | Fin _, PInf | Fin _, NInf => Fin 0
  | PInf, Fin y => if Qle_bool 0 y then PInf else NInf
  | NInf, Fin y => if Qle_bool 0 y then NInf else PInf
  | PInf, PInf | PInf, NInf | NInf, PInf | NInf, NInf => NaN
  end.

(** [a < b] *)
Definition fltb (a b : npfloat) : bool :=
  match a, b with
  | NaN, _ | _, NaN => false
  | Fin x, Fin y => Qltb x y
  | NInf, NInf | PInf, PInf => false
  | NInf, _ | _, PInf => true
  | _, NInf | PInf, _ => false
  end.

(** [a <= b] *)
Definition fleb (a b : npfloat) : bool :=
  match a, b with
  | NaN, _ | _, NaN => false
  | Fin x, Fin y => Qle_bool x y
  | NInf, _ | _, PInf => true
  | _, NInf | PInf, _ => false
  end.

(** [a > b] *)
Definition fgtb (a b : npfloat) : bool := fltb b a.

(** [a == b] *)
Definition feqb (a b : npfloat) : bool :=
  match a, b with
  | Fin x, Fin y => Qeq_bool x y
  | PInf, PInf | NInf, NInf => true
  | _, _ => false
  end.

(** [float(n)] for a Python integer. *)
Definition of_int (n : Z) : npfloat := Fin (inject_Z n).

(** [np.sum(a)] and the builtin [sum(a)]: both start from zero. *)
Definition np_sum (a : list npfloat) : npfloat :=
  fold_left fadd a (Fin 0).

(** The order numpy's sorts use on floats: [a < b], with [nan] after
    every other value. *)
Definition npy_lt (a b : npfloat) : bool :=
  fltb a b || (is_nan b && negb (is_nan a)).

End NpFloat.
Export NpFloat.

(* ------------------------------------------------------------------ *)
(** ** Stable merge sort and [argsort]

    [ndarray.argsort(kind='mergesort')] is numpy's stable sort.  The
    merge takes the right element only when it is strictly smaller than
    the left one, which is what keeps equal keys in their order. *)

Section MergeSort.

Context {A : Type}.
Variable lt : A -> A -> bool.

Fixpoint merge (l1 l2 : list A) {struct l1} : list A :=
  let fix merge_aux (l2 : list A) {struct l2} : list A :=
    match l1, l2 with
    | [], _ => l2
    | _, [] => l1
    | a :: l1', b :: l2' =>
        if lt b a then b :: merge_aux l2' else a :: merge l1' l2
    end
  in merge_aux l2.

(** Top-down merge sort.  [fuel] bounds the recursion depth; the
    length of the list is always enough ([mergesort] below). *)
Fixpoint msort_fuel (fuel : nat) (l : list A) {struct fuel} : list A :=
  match fuel with
  | O => l
  | S fuel' =>
      match l with
      | [] | [_] => l
      | _ =>
          let h := Nat.div2 (length l) in
          merge (msort_fuel fuel' (firstn h l)) (msort_fuel fuel' (skipn h l))
      end
  end.

Definition mergesort (l : list A) : list A := msort_fuel (length l) l.

(** [a] may stand before [b]. *)
Definition le (a b : A) : Prop := lt b a = false.

(** [x] is in the class of [k]: neither is smaller. *)
Definition eqv (k x : A) : bool := negb (lt k x) && negb (lt x k).

End MergeSort.

(** The sort compares index-key pairs by their key. *)
Definition key_lt (p q : nat * npfloat) : bool := npy_lt (snd p) (snd q).

(** [keys.argsort(kind='mergesort')]: the positions of [keys], sorted
    by key. *)
Definition argsort (keys : list npfloat) : list nat :=
  map fst (mergesort key_lt (combine (seq 0 (length keys)) keys)).

(** [a[idx]] for an index array [idx]. *)
Definition take {A : Type} (d : A) (a : list A) (idx : list nat) : list A :=
  map (fun i => nth i a d) idx.

(** [a[:stop]]; [None] keeps everything, a negative [stop] counts from
    the end. *)
Definition slice_to {A : Type} (stop : option Z) (a : list A) : list A :=
  match stop with
  | None => a
  | Some m =>
      if (m <? 0)%Z
      then firstn (Z.to_nat (Z.of_nat (length a) + m)) a
      else firstn (Z.to_nat m) a
  end.

(* ------------------------------------------------------------------ *)
(** ** Python values that cross the module's interface *)

Inductive exn : Type :=
| ValueError (msg : string)
| AssertionError (msg : string)
| IndexError (msg : string)
| TypeError (msg : string)
| OSError (msg : string).

Inductive result (A : Type) : Type :=
| Ok (a : A)
| Raise (e : exn).
Arguments Ok {A} a.
Arguments Raise {A} e.

(** Where tempo values come from: a list or array held in memory (its
    elements in row-major order), or anything else, which is handed to
    [np.loadtxt]. *)
Inductive source : Type :=
| InMemory (values : list Q)
| FromFile (name : string).

(** Numeric data a caller passes to a writer: a scalar, a 1-d array or
    a 2-d array given by its rows (all of one length). *)
Inductive array_like : Type :=
| Scalar (x : Q)
| Vec (xs : list Q)
| Mat (rows : list (list Q)).

(** One row of a chord array: start, end, label. *)
Definition chord_segment : Type := (Q * Q * string)%type.

(** The arrays that reach [np.savetxt]. *)
Inductive ndarray : Type :=
| Arr0 (x : npfloat)
| Arr1 (xs : list npfloat)
| Arr2 (rows : list (list npfloat))
| ArrRec (cs : list (npfloat * npfloat * string)).

(** The [fmt] argument of [np.savetxt]: one format or one per column. *)
Inductive fmt_spec : Type :=
| Fmt (f : string)
| FmtList (fs : list string).

(** What a writer hands back to its caller. *)
Inductive pyobj : Type :=
| PyNone
| PyArray (a : array_like)
| PyChords (cs : list chord_segment).

Definition np_asarray (a : array_like) : ndarray :=
  match a with
  | Scalar x => Arr0 (Fin x)
  | Vec xs => Arr1 (map Fin xs)
  | Mat rows => Arr2 (map (map Fin) rows)
  end.

(** [a.ndim] *)
Definition ndim (a : array_like) : Z :=
  match a with
  | Scalar _ => 0
  | Vec _ => 1
  | Mat _ => 2
  end.

(** [np.array(a, ndmin=2)]: dimensions of length one are prepended, so
    a scalar becomes one row of one element and a 1-d array (also an
    empty one) becomes one row.  The data is taken as float data, as
    [load_tempo] returns it; the call sets no [dtype], so an array of
    integers would keep its integer type, whose sums wrap around, and
    that is not represented. *)
Definition np_array_ndmin2 (a : array_like) : list (list npfloat) :=
  match a with
  | Scalar x => [[Fin x]]
  | Vec xs => [map Fin xs]
  | Mat rows => map (map Fin) rows
  end.

Definition tab : string := String (Ascii.ascii_of_nat 9) EmptyString.

(** The format [write_tempo] passes to [np.savetxt]. *)
Definition tempo_fmt : fmt_spec :=
  Fmt ("%.2f" ++ tab ++ "%.2f" ++ tab ++ "%.2f")%string.

(* ------------------------------------------------------------------ *)
(** ** The module's functions *)

Section Io.

(** The state of everything outside the program (files, handles). *)
Variable world : Type.

(** Computations that may change the world and may raise. *)
Definition M (A : Type) : Type := world -> result A * world.

Definition ret {A : Type} (a : A) : M A := fun w => (Ok a, w).

Definition raise {A : Type} (e : exn) : M A := fun w => (Raise e, w).

Definition bind {A B : Type} (m : M A) (k : A -> M B) : M B :=
  fun w =>
    match m w with
    | (Ok a, w') => k a w'
    | (Raise e, w') => (Raise e, w')
    end.

Notation "x <- m ;; k" := (bind m (fun x => k))
  (at level 61, m at next level, right associativity).

(** [np.loadtxt(name, ndmin=1)]: the numbers of the file in row-major
    order. *)
Variable np_loadtxt : string -> M (list Q).

(** [np.savetxt(filename, data, fmt=fmt, delimiter=delimiter,
    header=header)] *)
Variable np_savetxt : string -> ndarray -> fmt_spec -> string -> string -> M unit.

(** Lines 282-288: the values as a float array. *)
Definition load_values (values : source) : M (list npfloat) :=
  match values with
  | InMemory l => ret (map Fin l)
  | FromFile name => l <- np_loadtxt name ;; ret (map Fin l)
  end.

(** [np.ones_like(a)] *)
Definition np_ones_like (a : list npfloat) : list npfloat :=
  map (fun _ => Fin 1) a.

Definition load_tempo (values : source) (split_value : Q)
    (sort norm_strengths : bool) (max_len : option Z)
  : M (list (npfloat * npfloat)) :=
  (* check max_len *)
  if match max_len with Some m => (m <? 1)%Z | None => false end
  then raise (ValueError "`max_len` must be greater or equal to 1")
  else
    (* load the tempo from the given representation *)
    values <- load_values values ;;
    (* split the values into tempi and strengths *)
    let tempi := filter (fun v => fgtb v (Fin split_value)) values in
    let strengths := filter (fun v => fleb v (Fin split_value)) values in
    let strength_sum := np_sum strengths in
    (* relative strengths are given (one less than tempi) *)
    strengths <-
      (if (Z.of_nat (length tempi) - Z.of_nat (length strengths) =? 1)%Z
       then
         let strengths := strengths ++ [fsub (Fin 1) strength_sum] in
         if existsb (fun s => fltb s (Fin 0)) strengths
         then raise (AssertionError "strengths must be positive")
         else ret strengths
       else ret strengths) ;;
    (* no strength is given, assume an evenly distributed one *)
    let strengths :=
      if feqb strength_sum (Fin 0)
      then map (fun one => fdiv one (of_int (Z.of_nat (length tempi))))
               (np_ones_like tempi)
      else strengths in
    (* normalize the strengths *)
    let strengths :=
      if norm_strengths
      then map (fun s => fdiv s strength_sum) strengths
      else strengths in
    (* tempi and strengths must have same length *)
    if negb (length tempi =? length strengths)%nat
    then raise (AssertionError "tempi and strengths must have same length")
    else
      (* order the tempi according to their strengths *)
      let sorted :=
        if sort
        then
          let sort_idx := argsort (map fopp strengths) in
          (take NaN tempi sort_idx, take NaN strengths sort_idx)
        else (tempi, strengths) in
      (* return at most 'max_len' tempi and their relative strength *)
      ret (combine (slice_to max_len (fst sorted))
                   (slice_to max_len (snd sorted))).

(** [a[i][j]] on a 2-d array. *)
Definition item (a : list (list npfloat)) (i j : nat) : M npfloat :=
  match nth_error a i with
  | None => raise (IndexError "index out of bounds")
  | Some row =>
      match nth_error row j with
      | None => raise (IndexError "index out of bounds")
      | Some x => ret x
      end
  end.

(** [a[:2, j]]: column [j] of the first two rows. *)
Fixpoint column (rows : list (list npfloat)) (j : nat) : M (list npfloat) :=
  match rows with
  | [] => ret []
  | row :: rows' =>
      match nth_error row j with
      | None => raise (IndexError "index out of bounds")
      | Some x => xs <- column rows' j ;; ret (x :: xs)
      end
  end.

Definition write_tempo (tempi : array_like) (filename : string) (mirex : bool)
  : M (npfloat * npfloat * npfloat) :=
  (* make the given tempi a 2d array *)
  let tempi := np_array_ndmin2 tempi in
  r <-
    (if (length tempi =? 1)%nat
     then
       (* only one tempo was detected *)
       t1 <- item tempi 0 0 ;;
       if fltb t1 (Fin 68)
       then ret (t1, fmul t1 (Fin 2), Fin 1)
       else ret (t1, fdiv t1 (Fin 2), Fin 1)
     else if (1 <? length tempi)%nat
     then
       (* consider only the two strongest tempi and strengths *)
       ts <- column (firstn 2 tempi) 0 ;;
       match ts with
       | [t1; t2] =>
           s0 <- item tempi 0 1 ;;
           ss <- column (firstn 2 tempi) 1 ;;
           ret (t1, t2, fdiv s0 (np_sum ss))
       | _ => raise (ValueError "not enough values to unpack")
       end
     else
       (* default values *)
       ret (Fin 0, Fin 0, Fin 1)) ;;
  let '(t1, t2, strength) := r in
  (* for MIREX, the lower tempo must be given first *)
  let '(t1, t2, strength) :=
    if mirex && fgtb t1 t2
    then (t2, t1, fsub (Fin 1) strength)
    else (t1, t2, strength) in
  (* format as a numpy array and write to output *)
  let out := Arr2 [[t1; t2; strength]] in
  _ <- np_savetxt filename out
         tempo_fmt " " "" ;;
  (* also return the tempi & strength *)
  ret (t1, t2, strength).

Definition write_events (events : array_like) (filename : string)
    (fmt : fmt_spec) (delimiter header : string) : M pyobj :=
  (* write the events to the output *)
  _ <- np_savetxt filename (np_asarray events) fmt delimiter header ;;
  (* also return them *)
  ret (PyArray events).

Definition write_onsets := write_events.

(** The keyword arguments [write_events] accepts besides [fmt]. *)
Fixpoint bind_kwargs (kwargs : list (string * string))
    (delimiter header : string) : result (string * string) :=
  match kwargs with
  | [] => Ok (delimiter, header)
  | (k, v) :: kwargs' =>
      if (k =? "delimiter")%string then bind_kwargs kwargs' v header
      else if (k =? "header")%string then bind_kwargs kwargs' delimiter v
      else Raise (TypeError k)
  end.

Definition write_beats (beats : array_like) (filename : string)
    (kwargs : list (string * string)) : M pyobj :=
  let fmt :=
    if (ndim beats =? 2)%Z then FmtList ["%.3f"; "%d"] else Fmt "%.3f" in
  match bind_kwargs kwargs tab "" with
  | Raise e => raise e
  | Ok (delimiter, header) =>
      _ <- write_events beats filename fmt delimiter header ;;
      ret PyNone
  end.

Definition write_chords (chords : list chord_segment) (filename : string)
  : M pyobj :=
  _ <- np_savetxt filename
         (ArrRec (map (fun c => (Fin (fst (fst c)), Fin (snd (fst c)), snd c)) chords))
         (FmtList ["%.3f"; "%.3f"; "%s"]) tab "" ;;
  ret (PyChords chords).

End Io.

Arguments ret {world A} a.
Arguments raise {world A} e.
Arguments bind {world A B} m k.

(* ------------------------------------------------------------------ *)
(** ** A concrete world

    Files are a table from names to the numbers [np.loadtxt] finds in
    them; every call of an external function is logged.  Used to run the
    functions on concrete inputs. *)

Module Log.

Inductive event : Type :=
| Loadtxt (name : string)
| Savetxt (filename : string) (data : ndarray) (fmt : fmt_spec)
          (delimiter header : string).

Record world : Type := { files : list (string * list Q); trace : list event }.

Definition log (e : event) (w : world) : world :=
  {| files := files w; trace := trace w ++ [e] |}.

Fixpoint lookup (name : string) (fs : list (string * list Q)) : option (list Q) :=
  match fs with
  | [] => None
  | (n, l) :: fs' => if (n =? name)%string then Some l else lookup name fs'
  end.

Definition np_loadtxt (name : string) : M world (list Q) :=
  fun w =>
    match lookup name (files w) with
    | Some l => (Ok l, log (Loadtxt name) w)
    | None => (Raise (OSError name), log (Loadtxt name) w)
    end.

Definition np_savetxt (filename : string) (data : ndarray) (fmt : fmt_spec)
    (delimiter header : string) : M world unit :=
  fun w => (Ok tt, log (Savetxt filename data fmt delimiter header) w).

Definition empty : world := {| files := []; trace := [] |}.

Definition load_tempo := load_tempo world np_loadtxt.
Definition write_tempo := write_tempo world np_savetxt.
Definition write_events := write_events world np_savetxt.
Definition write_onsets := write_onsets world np_savetxt.
Definition write_beats := write_beats world np_savetxt.
Definition write_chords := write_chords world np_savetxt.

End Log.

(* ------------------------------------------------------------------ *)
(** ** The stages of [load_tempo], named for the statements below

    Each definition is one step of the function's body, as a function
    of the float array [values]; [load_tempo_stages] ties them to
    [load_tempo]. *)

Definition max_len_invalid (max_len : option Z) : bool :=
  match max_len with Some m => (m <? 1)%Z | None => false end.

Definition tempi_of (split_value : Q) (values : list npfloat) : list npfloat :=
  filter (fun v => fgtb v (Fin split_value)) values.

Definition strengths_of (split_value : Q) (values : list npfloat) : list npfloat :=
  filter (fun v => fleb v (Fin split_value)) values.

(** One strength is missing: the relative-strength format. *)
Definition completes (tempi strengths : list npfloat) : bool :=
  (Z.of_nat (length tempi) - Z.of_nat (length strengths) =? 1)%Z.

Definition completed (tempi strengths : list npfloat) : list npfloat :=
  if completes tempi strengths
  then strengths ++ [fsub (Fin 1) (np_sum strengths)]
  else strengths.

Definition has_negative (strengths : list npfloat) : bool :=
  existsb (fun s => fltb s (Fin 0)) strengths.

(** The strengths after the completion, the uniform distribution and
    the normalisation; [given] are the strengths found in the input,
    whose sum all three steps use. *)
Definition final_strengths (norm_strengths : bool) (tempi given : list npfloat)
  : list npfloat :=
  let strengths := completed tempi given in
  let strengths :=
    if feqb (np_sum given) (Fin 0)
    then map (fun one => fdiv one (of_int (Z.of_nat (length tempi))))
             (np_ones_like tempi)
    else strengths in
  if norm_strengths
  then map (fun s => fdiv s (np_sum given)) strengths
  else strengths.

(** The rows before the truncation. *)
Definition ordered_rows (sort : bool) (tempi strengths : list npfloat)
  : list (npfloat * npfloat) :=
  if sort
  then
    let sort_idx := argsort (map fopp strengths) in
    combine (take NaN tempi sort_idx) (take NaN strengths sort_idx)
  else combine tempi strengths.

(** Sum of a column of strengths equals one. *)
Definition sums_to_one (strengths : list npfloat) : bool :=
  feqb (np_sum strengths) (Fin 1).

(** [0 <= s] *)
Definition non_negative (s : npfloat) : bool := fleb (Fin 0) s.

(** The second tempo [write_tempo] makes up for a single tempo. *)
Definition fake_second_tempo (t1 : Q) : Q :=
  if Qltb t1 68 then t1 * 2 else t1 / 2.

(** The index-key pairs [argsort] sorts for [(-strengths)]. *)
Definition keyed (strengths : list npfloat) : list (nat * npfloat) :=
  combine (seq 0 (length (map fopp strengths))) (map fopp strengths).

(** The row at the position a pair names. *)
Definition row_at (tempi strengths : list npfloat) (p : nat * npfloat)
  : npfloat * npfloat :=
  (nth (fst p) tempi NaN, nth (fst p) strengths NaN).

(* ------------------------------------------------------------------ *)
(** ** The loaders of events, onsets, beats and chords

    [np.loadtxt] is again a parameter; it hands over the finite data of
    the file in the shape it chose, and the conversion to a float array
    injects it with [Fin].  A 2-d array without rows stands for one
    that has the columns the code asks for (shape [(0, k)] with [k] at
    least 2).  The decorator [suppress_warnings] changes no result and
    is left out. *)

(** The [values] argument of [load_onsets] and [load_beats]: [None], a
    list or array held in memory, or anything else, which is handed to
    [np.loadtxt]. *)
Inductive values_arg : Type :=
| NoValues
| Values (a : array_like)
| File (name : string).

(** [a.ndim] of a float array. *)
Definition ndarray_ndim (a : ndarray) : Z :=
  match a with
  | Arr0 _ => 0
  | Arr1 _ => 1
  | Arr2 _ => 2
  | ArrRec _ => 1
  end.

(** [np.array(a, dtype=np.float, ndmin=1, copy=False)] *)
Definition np_array_ndmin1 (a : array_like) : ndarray :=
  match a with
  | Scalar x => Arr1 [Fin x]
  | Vec xs => Arr1 (map Fin xs)
  | Mat rows => Arr2 (map (map Fin) rows)
  end.

(** [a[mask]] for a boolean mask over the rows of a 2-d array. *)
Definition select_rows (a : ndarray) (mask : list bool) : ndarray :=
  match a with
  | Arr2 rows => Arr2 (map fst (filter snd (combine rows mask)))
  | _ => a
  end.

(** [xs] is [ys] with some elements left out, the others in order. *)
Inductive subseq {A : Type} : list A -> list A -> Prop :=
| subseq_nil : subseq [] []
| subseq_skip x xs ys : subseq xs ys -> subseq xs (x :: ys)
| subseq_keep x xs ys : subseq xs ys -> subseq (x :: xs) (x :: ys).

Section Loaders.

Variable world : Type.

(** [np.loadtxt(name, ndmin=ndmin)] *)
Variable np_loadtxt_nd : nat -> string -> M world array_like.

(** [np.loadtxt(name, comments=None, ndmin=1, dtype=CHORD_DTYPE,
    converters={2: lambda x: x.decode()})] *)
Variable np_loadtxt_chords : string -> M world (list chord_segment).

Local Notation "x <- m ;; k" := (bind m (fun x => k))
  (at level 61, m at next level, right associativity).

(** [a[:, j]]; an array of fewer than two dimensions has no second
    axis to index. *)
Definition column_of (a : ndarray) (j : nat) : M world (list npfloat) :=
  match a with
  | Arr2 rows => column world rows j
  | _ => raise (IndexError "too many indices for array")
  end.

Definition load_events (filename : string) : M world ndarray :=
  (* read in the events, one per line *)
  events <- (a <- np_loadtxt_nd 2 filename ;; ret (np_asarray a)) ;;
  (* 1st column is the event's time, the rest is ignored *)
  times <- column_of events 0 ;;
  ret (Arr1 times).

Definition load_onsets (values : values_arg) : M world ndarray :=
  (* load the onsets from the given representation *)
  values <-
    match values with
    | NoValues => ret (Arr1 [])
    | Values a => ret (np_array_ndmin1 a)
    | File name => a <- np_loadtxt_nd 1 name ;; ret (np_asarray a)
    end ;;
  (* 1st column is the onset time, the rest is ignored *)
  if (1 <? ndarray_ndim values)%Z
  then times <- column_of values 0 ;; ret (Arr1 times)
  else ret values.

Definition load_beats (values : values_arg) (downbeats : bool) : M world ndarray :=
  (* load the beats from the given representation *)
  values <-
    match values with
    | NoValues => ret (Arr1 [])
    | Values a => ret (np_array_ndmin1 a)
    | File name => a <- np_loadtxt_nd 1 name ;; ret (np_asarray a)
    end ;;
  if (1 <? ndarray_ndim values)%Z
  then
    if downbeats
    then
      (* rows with a "1" in the 2nd column are the downbeats *)
      numbers <- column_of values 1 ;;
      times <-
        column_of (select_rows values (map (fun n => feqb n (Fin 1)) numbers)) 0 ;;
      ret (Arr1 times)
    else
      (* 1st column is the beat time, the rest is ignored *)
      times <- column_of values 0 ;;
      ret (Arr1 times)
  else ret values.

(** The array [load_onsets] and [load_beats] start from (lines 100-109
    and 144-153), named for the statements below. *)
Definition loaded_array (values : values_arg) : M world ndarray :=
  match values with
  | NoValues => ret (Arr1 [])
  | Values a => ret (np_array_ndmin1 a)
  | File name => a <- np_loadtxt_nd 1 name ;; ret (np_asarray a)
  end.

Definition load_chords (filename : string) : M world ndarray :=
  cs <- np_loadtxt_chords filename ;;
  ret (ArrRec (map (fun c => (Fin (fst (fst c)), Fin (snd (fst c)), snd c)) cs)).

End Loaders.

(** A concrete world for the loaders: a table from file names to the
    array [np.loadtxt] finds there. *)
Module Disk.

Definition world : Type := list (string * array_like).

Fixpoint lookup (name : string) (fs : world) : option array_like :=
  match fs with
  | [] => None
  | (n, a) :: fs' => if (n =? name)%string then Some a else lookup name fs'
  end.

Definition np_loadtxt_nd (ndmin : nat) (name : string) : M world array_like :=
  fun w =>
    match lookup name w with
    | Some a => (Ok a, w)
    | None => (Raise (OSError name), w)
    end.

Definition np_loadtxt_chords (name : string) : M world (list chord_segment) :=
  fun w => (Raise (OSError name), w).

Definition loaded_array := loaded_array world np_loadtxt_nd.
Definition load_events := load_events world np_loadtxt_nd.
Definition load_onsets := load_onsets world np_loadtxt_nd.
Definition load_beats := load_beats world np_loadtxt_nd.

End Disk.

(* ------------------------------------------------------------------ *)
(** ** What [write_tempo] reports, as a function of the 2-d array

    [write_tempo_reports] ties it to [write_tempo]. *)

Definition dominant_tempi (a : list (list npfloat))
  : result (npfloat * npfloat * npfloat) :=
  match a with
  | [] => Ok (Fin 0, Fin 0, Fin 1)
  | [row] =>
      match row with
      | [] => Raise (IndexError "index out of bounds")
      | t1 :: _ =>
          Ok (t1, if fltb t1 (Fin 68) then fmul t1 (Fin 2) else fdiv t1 (Fin 2),
              Fin 1)
      end
  | row1 :: row2 :: _ =>
      match row1, row2 with
      | t1 :: s1 :: _, t2 :: s2 :: _ => Ok (t1, t2, fdiv s1 (np_sum [s1; s2]))
      | _, _ => Raise (IndexError "index out of bounds")
      end
  end.

(** The MIREX rule: the lower tempo first. *)
Definition mirex_order (mirex : bool) (r : npfloat * npfloat * npfloat)
  : npfloat * npfloat * npfloat :=
  let '(t1, t2, strength) := r in
  if mirex && fgtb t1 t2 then (t2, t1, fsub (Fin 1) strength) else (t1, t2, strength).

(* ------------------------------------------------------------------ *)
(** ** Facts about the float order *)

Lemma Qle_bool_false x y : Qle_bool x y = false <-> y < x.
Proof.
  split; intro H.
  - apply Qnot_le_lt. intro C. apply Qle_bool_iff in C. congruence.
  - destruct (Qle_bool x y) eqn:E; [|reflexivity].
    apply Qle_bool_iff in E. lra.
Qed.

Lemma Qeq_bool_false x y : Qeq_bool x y = false <-> ~ x == y.
Proof.
  split; intro H.
  - intro C. apply Qeq_bool_iff in C. congruence.
  - destruct (Qeq_bool x y) eqn:E; [|reflexivity].
    apply Qeq_bool_iff in E. contradiction.
Qed.

(** Turns boolean comparisons of rationals into propositions. *)
Ltac qprop :=
  unfold Qltb in *;
  repeat match goal with
    | H : negb _ = true |- _ => apply negb_true_iff in H
    | H : negb _ = false |- _ => apply negb_false_iff in H
    | H : Qle_bool _ _ = true |- _ => apply Qle_bool_iff in H
    | H : Qle_bool _ _ = false |- _ => apply Qle_bool_false in H
    | H : Qeq_bool _ _ = true |- _ => apply Qeq_bool_iff in H
    | H : Qeq_bool _ _ = false |- _ => apply Qeq_bool_false in H
    end;
  repeat match goal with
    | |- negb _ = true => apply negb_true_iff
    | |- negb _ = false => apply negb_false_iff
    | |- Qle_bool _ _ = true => apply Qle_bool_iff
    | |- Qle_bool _ _ = false => apply Qle_bool_false
    | |- Qeq_bool _ _ = true => apply Qeq_bool_iff
    | |- Qeq_bool _ _ = false => apply Qeq_bool_false
    end.

Lemma npy_lt_asym a b : npy_lt a b = true -> npy_lt b a = false.
Proof.
  unfold npy_lt; destruct a, b; simpl; rewrite ?orb_false_r;
    try discriminate; try reflexivity.
  intro H. qprop. lra.
Qed.

Lemma npy_le_trans a b c :
  npy_lt b a = false -> npy_lt c b = false -> npy_lt c a = false.
Proof.
  unfold npy_lt; destruct a, b, c; simpl; rewrite ?orb_false_r;
    try discriminate; try reflexivity.
  intros H1 H2. qprop. lra.
Qed.

(** Sorting by [-strength]: the order on negated keys, read on the
    strengths themselves. *)
Lemma key_le_desc s1 s2 :
  is_nan s1 = false -> is_nan s2 = false ->
  npy_lt (fopp s2) (fopp s1) = false -> fleb s2 s1 = true.
Proof.
  unfold npy_lt; destruct s1, s2; simpl; rewrite ?orb_false_r;
    try discriminate; try reflexivity.
  intros _ _ H. qprop. lra.
Qed.

Lemma key_eqv_feqb s x :
  is_nan s = false ->
  eqv npy_lt (fopp s) (fopp x) = feqb x s.
Proof.
  unfold eqv, npy_lt.
  destruct s, x; simpl; rewrite ?orb_false_r;
    try discriminate; try reflexivity.
  intros _.
  destruct (Qeq_bool q0 q) eqn:E; qprop.
  - apply andb_true_iff. split; qprop; lra.
  - apply andb_false_iff.
    destruct (Qlt_le_dec q q0); [right | left]; qprop; [lra|].
    destruct (Qeq_dec q0 q); [contradiction|]. lra.
Qed.

Lemma feqb_nan_r x : feqb x NaN = false.
Proof. destruct x; reflexivity. Qed.

Lemma fleb_not_gt a b : fleb a b = true -> fgtb a b = false.
Proof.
  unfold fgtb. unfold npy_lt; destruct a, b; simpl; try discriminate; try reflexivity.
  intro H. qprop. lra.
Qed.

(* ------------------------------------------------------------------ *)
(** ** The merge sort is a stable sort *)

Section MergeSortFacts.

Context {A : Type}.
Variable lt : A -> A -> bool.

(** [lt] is a strict weak order: asymmetric, and its complement is
    transitive. *)
Hypothesis lt_asym : forall a b, lt a b = true -> lt b a = false.
Hypothesis le_trans :
  forall a b c, lt b a = false -> lt c b = false -> lt c a = false.

Local Abbreviation le := (le lt).
Local Abbreviation eqv := (eqv lt).

Lemma le_refl a : le a a.
Proof.
  unfold le. destruct (lt a a) eqn:E; [|reflexivity].
  rewrite (lt_asym _ _ E) in E. discriminate.
Qed.

Lemma merge_nil_l l : merge lt [] l = l.
Proof. destruct l; reflexivity. Qed.

Lemma merge_nil_r l : merge lt l [] = l.
Proof. destruct l; reflexivity. Qed.

Lemma merge_cons a l1 b l2 :
  merge lt (a :: l1) (b :: l2) =
  if lt b a then b :: merge lt (a :: l1) l2 else a :: merge lt l1 (b :: l2).
Proof. reflexivity. Qed.

Lemma merge_perm l1 : forall l2, Permutation (merge lt l1 l2) (l1 ++ l2).
Proof.
  induction l1 as [|a l1 IH1]; intro l2.
  - rewrite merge_nil_l. apply Permutation_refl.
  - induction l2 as [|b l2 IH2].
    + rewrite merge_nil_r, app_nil_r. apply Permutation_refl.
    + rewrite merge_cons. destruct (lt b a).
      * apply Permutation_cons_app with (l1 := a :: l1). exact IH2.
      * simpl. apply perm_skip. apply IH1.
Qed.

Lemma merge_sorted l1 : forall l2,
  StronglySorted le l1 -> StronglySorted le l2 ->
  StronglySorted le (merge lt l1 l2).
Proof.
  induction l1 as [|a l1 IH1]; intros l2 S1 S2.
  - rewrite merge_nil_l. exact S2.
  - induction l2 as [|b l2 IH2].
    + rewrite merge_nil_r. exact S1.
    + rewrite merge_cons. destruct (lt b a) eqn:E.
      * inversion S2 as [|? ? S2' F2]; subst.
        constructor; [apply IH2; exact S2'|].
        eapply Permutation_Forall;
          [apply Permutation_sym, merge_perm|].
        apply Forall_app. split; [|exact F2].
        inversion S1 as [|? ? S1' F1]; subst.
        constructor; [exact (lt_asym _ _ E)|].
        eapply Forall_impl; [|exact F1].
        intros x Hx. unfold le in *.
        exact (le_trans _ _ _ (lt_asym _ _ E) Hx).
      * inversion S1 as [|? ? S1' F1]; subst.
        constructor; [apply IH1; assumption|].
        eapply Permutation_Forall;
          [apply Permutation_sym, merge_perm|].
        apply Forall_app. split; [exact F1|].
        inversion S2 as [|? ? S2' F2]; subst.
        constructor; [exact E|].
        eapply Forall_impl; [|exact F2].
        intros x Hx. unfold le in *.
        exact (le_trans _ _ _ E Hx).
Qed.

(** Nothing of the class of [b] stands in a sorted list that starts
    above [b]. *)
Lemma filter_eqv_above k a b l :
  StronglySorted le (a :: l) -> lt b a = true -> eqv k b = true ->
  filter (eqv k) (a :: l) = [].
Proof.
  intros S E K.
  assert (F : Forall (le a) (a :: l)).
  { inversion S; subst. constructor; [apply le_refl|assumption]. }
  clear S. unfold eqv in K. apply andb_true_iff in K as [K1 K2].
  apply negb_true_iff in K1, K2.
  induction F as [|x l' Hx F IH]; [reflexivity|].
  simpl. rewrite IH.
  destruct (eqv k x) eqn:Ex; [|reflexivity].
  unfold eqv in Ex. apply andb_true_iff in Ex as [X1 X2].
  apply negb_true_iff in X1, X2. unfold le in Hx.
  pose proof (le_trans _ _ _ (le_trans _ _ _ Hx X1) K2) as C.
  rewrite E in C. discriminate.
Qed.

Lemma filter_step (f : A -> bool) x l :
  filter f (x :: l) = if f x then x :: filter f l else filter f l.
Proof. reflexivity. Qed.

Lemma merge_stable k l1 : forall l2,
  StronglySorted le l1 ->
  filter (eqv k) (merge lt l1 l2) = filter (eqv k) l1 ++ filter (eqv k) l2.
Proof.
  induction l1 as [|a l1 IH1]; intros l2 S1.
  - rewrite merge_nil_l. reflexivity.
  - induction l2 as [|b l2 IH2].
    + rewrite merge_nil_r, app_nil_r. reflexivity.
    + rewrite merge_cons. destruct (lt b a) eqn:E.
      * rewrite (filter_step _ b (merge lt (a :: l1) l2)), (filter_step _ b l2), IH2.
        destruct (eqv k b) eqn:K; [|reflexivity].
        rewrite (filter_eqv_above k a b l1 S1 E K). reflexivity.
      * rewrite (filter_step _ a (merge lt l1 (b :: l2))), (filter_step _ a l1).
        rewrite IH1 by (inversion S1; assumption).
        destruct (eqv k a); reflexivity.
Qed.

Lemma div2_bounds n : (2 <= n -> 1 <= Nat.div2 n < n)%nat.
Proof.
  intro H. pose proof (Nat.div2_odd n) as E.
  destruct (Nat.odd n); cbn [Nat.b2n] in E; lia.
Qed.

Lemma msort_fuel_spec fuel : forall l,
  (length l <= fuel)%nat ->
  Permutation (msort_fuel lt fuel l) l /\
  StronglySorted le (msort_fuel lt fuel l) /\
  (forall k, filter (eqv k) (msort_fuel lt fuel l) = filter (eqv k) l).
Proof.
  induction fuel as [|fuel IH]; intros l Hl.
  - destruct l; [|simpl in Hl; lia]. simpl.
    repeat split; auto using Permutation_refl. constructor.
  - destruct l as [|a [|b l]].
    + simpl. repeat split; auto using Permutation_refl. constructor.
    + simpl. repeat split; auto using Permutation_refl.
      constructor; constructor.
    + set (l0 := a :: b :: l) in *.
      assert (E : msort_fuel lt (S fuel) l0 =
                  merge lt (msort_fuel lt fuel (firstn (Nat.div2 (length l0)) l0))
                           (msort_fuel lt fuel (skipn (Nat.div2 (length l0)) l0)))
        by reflexivity.
      rewrite E. clear E.
      assert (H2 : (2 <= length l0)%nat) by (unfold l0; simpl; lia).
      pose proof (div2_bounds _ H2) as Hh.
      set (h := Nat.div2 (length l0)) in *.
      destruct (IH (firstn h l0)) as (P1 & S1 & F1).
      { rewrite length_firstn. lia. }
      destruct (IH (skipn h l0)) as (P2 & S2 & F2).
      { rewrite length_skipn. lia. }
      split; [|split].
      * eapply Permutation_trans; [apply merge_perm|].
        rewrite <- (firstn_skipn h l0) at 3.
        apply Permutation_app; assumption.
      * apply merge_sorted; assumption.
      * intro k. rewrite merge_stable by assumption.
        rewrite F1, F2, <- filter_app, firstn_skipn. reflexivity.
Qed.

Lemma mergesort_perm l : Permutation (mergesort lt l) l.
Proof. apply (msort_fuel_spec (length l) l). apply Nat.le_refl. Qed.

Lemma mergesort_sorted l : StronglySorted le (mergesort lt l).
Proof. apply (msort_fuel_spec (length l) l). apply Nat.le_refl. Qed.

Lemma mergesort_stable l k :
  filter (eqv k) (mergesort lt l) = filter (eqv k) l.
Proof. apply (msort_fuel_spec (length l) l). apply Nat.le_refl. Qed.

End MergeSortFacts.

(* ------------------------------------------------------------------ *)
(** ** [load_tempo], stage by stage *)

Section LoadTempoFacts.

Variable world : Type.
Variable np_loadtxt : string -> M world (list Q).

Local Abbreviation load_tempo := (load_tempo world np_loadtxt).
Local Abbreviation load_values := (load_values world np_loadtxt).

Lemma combine_slice_to {A B : Type} (m : option Z) (a : list A) (b : list B) :
  length a = length b ->
  combine (slice_to m a) (slice_to m b) = slice_to m (combine a b).
Proof.
  intro E. destruct m as [m|]; [|reflexivity]. simpl.
  rewrite length_combine, <- E, Nat.min_id.
  destruct (m <? 0)%Z; symmetry; apply combine_firstn.
Qed.

Lemma length_take {A : Type} (d : A) a idx : length (take d a idx) = length idx.
Proof. apply length_map. Qed.

Lemma load_tempo_stages values split_value sort norm_strengths max_len w :
  load_tempo values split_value sort norm_strengths max_len w =
  if max_len_invalid max_len
  then (Raise (ValueError "`max_len` must be greater or equal to 1"), w)
  else
    match load_values values w with
    | (Raise e, w1) => (Raise e, w1)
    | (Ok vals, w1) =>
        let tempi := tempi_of split_value vals in
        let given := strengths_of split_value vals in
        if completes tempi given && has_negative (completed tempi given)
        then (Raise (AssertionError "strengths must be positive"), w1)
        else
          if negb (length tempi =? length (final_strengths norm_strengths tempi given))%nat
          then (Raise (AssertionError "tempi and strengths must have same length"), w1)
          else
            (Ok (slice_to max_len
                   (ordered_rows sort tempi
                      (final_strengths norm_strengths tempi given))), w1)
    end.
Proof.
  unfold load_tempo, max_len_invalid.
  destruct (match max_len with Some m => (m <? 1)%Z | None => false end);
    [reflexivity|].
  unfold bind at 1.
  destruct (load_values values w) as [[vals|e] w1]; [|reflexivity].
  cbv zeta. fold (tempi_of split_value vals) (strengths_of split_value vals).
  set (tempi := tempi_of split_value vals).
  set (given := strengths_of split_value vals).
  unfold bind, final_strengths, completed, completes, has_negative.
  assert (K : forall strengths : list npfloat,
    (if negb (length tempi =? length strengths)%nat
     then raise (AssertionError "tempi and strengths must have same length")
     else ret (combine
                 (slice_to max_len
                    (fst (if sort
                          then (take NaN tempi (argsort (map fopp strengths)),
                                take NaN strengths (argsort (map fopp strengths)))
                          else (tempi, strengths))))
                 (slice_to max_len
                    (snd (if sort
                          then (take NaN tempi (argsort (map fopp strengths)),
                                take NaN strengths (argsort (map fopp strengths)))
                          else (tempi, strengths)))))) w1 =
    (if negb (length tempi =? length strengths)%nat
     then (Raise (AssertionError "tempi and strengths must have same length"), w1)
     else (Ok (slice_to max_len (ordered_rows sort tempi strengths)), w1))).
  { intro strengths.
    destruct (length tempi =? length strengths)%nat eqn:E; cbn [negb];
      [|reflexivity].
    apply Nat.eqb_eq in E. unfold ret, ordered_rows.
    destruct sort; cbn [fst snd].
    - rewrite combine_slice_to
        by (unfold take; rewrite !length_map; reflexivity).
      reflexivity.
    - rewrite combine_slice_to by exact E. reflexivity. }
  destruct (Z.of_nat (length tempi) - Z.of_nat (length given) =? 1)%Z;
    cbn [andb].
  - destruct (existsb _ _); [reflexivity|]. unfold ret at 1. apply K.
  - unfold ret at 1. apply K.
Qed.

End LoadTempoFacts.

(* ------------------------------------------------------------------ *)
(** ** Sorting the rows by strength *)

Section OrderedRows.

Lemma key_lt_asym p q : key_lt p q = true -> key_lt q p = false.
Proof. apply npy_lt_asym. Qed.

Lemma key_le_trans p q r :
  key_lt q p = false -> key_lt r q = false -> key_lt r p = false.
Proof. apply npy_le_trans. Qed.

Lemma pairs_perm l : Permutation (mergesort key_lt l) l.
Proof. exact (mergesort_perm key_lt key_lt_asym key_le_trans l). Qed.

Lemma pairs_sorted l : StronglySorted (le key_lt) (mergesort key_lt l).
Proof. exact (mergesort_sorted key_lt key_lt_asym key_le_trans l). Qed.

Lemma pairs_stable l k :
  filter (eqv key_lt k) (mergesort key_lt l) = filter (eqv key_lt k) l.
Proof. exact (mergesort_stable key_lt key_lt_asym key_le_trans l k). Qed.

Lemma combine_map_both {A B C : Type} (f : A -> B) (g : A -> C) l :
  combine (map f l) (map g l) = map (fun x => (f x, g x)) l.
Proof. induction l as [|x l IH]; simpl; [|rewrite IH]; reflexivity. Qed.

Lemma map_nth_seq {A : Type} (d : A) (a : list A) :
  map (fun i => nth i a d) (seq 0 (length a)) = a.
Proof.
  apply nth_ext with (d := nth (length a) a d) (d' := d).
  - rewrite length_map, length_seq. reflexivity.
  - intros i Hi. rewrite length_map, length_seq in Hi.
    rewrite (map_nth (fun i => nth i a d) (seq 0 (length a)) (length a) i).
    rewrite seq_nth by exact Hi. reflexivity.
Qed.

Lemma combine_seq_keys (keys : list npfloat) :
  combine (seq 0 (length keys)) keys =
  map (fun i => (i, nth i keys NaN)) (seq 0 (length keys)).
Proof.
  rewrite <- (combine_map_both (fun i => i) (fun i => nth i keys NaN)).
  rewrite map_id, map_nth_seq. reflexivity.
Qed.

Lemma StronglySorted_map_in {A B : Type} (R : A -> A -> Prop)
    (R' : B -> B -> Prop) (f : A -> B) (l : list A) :
  (forall x y, In x l -> In y l -> R x y -> R' (f x) (f y)) ->
  StronglySorted R l -> StronglySorted R' (map f l).
Proof.
  intros H S. induction S as [|a l S IH F]; simpl; constructor.
  - apply IH. intros x y Hx Hy. apply H; right; assumption.
  - apply Forall_map. rewrite Forall_forall in *.
    intros y Hy. apply H; [left; reflexivity | right; exact Hy | exact (F y Hy)].
Qed.

Variables tempi strengths : list npfloat.
Hypothesis same_length : length tempi = length strengths.

Local Abbreviation keys := (map fopp strengths).
Local Abbreviation pairs := (keyed strengths).
Local Abbreviation row_at := (row_at tempi strengths).

Lemma ordered_rows_as_map :
  ordered_rows true tempi strengths = map row_at (mergesort key_lt pairs).
Proof.
  unfold ordered_rows, take, argsort, keyed.
  rewrite combine_map_both, map_map. reflexivity.
Qed.

Lemma rows_as_map : combine tempi strengths = map row_at pairs.
Proof.
  unfold keyed. rewrite combine_seq_keys, map_map. unfold row_at. cbn [fst].
  rewrite length_map.
  rewrite <- (combine_map_both (fun i => nth i tempi NaN)
                               (fun i => nth i strengths NaN)).
  rewrite map_nth_seq. rewrite <- same_length, map_nth_seq. reflexivity.
Qed.

(** Every pair carries the negated strength of its row. *)
Lemma pair_key p : In p pairs -> snd p = fopp (snd (row_at p)).
Proof.
  unfold keyed. rewrite combine_seq_keys. intro H.
  apply in_map_iff in H as (i & <- & _). unfold row_at. cbn [fst snd].
  exact (map_nth fopp strengths NaN i).
Qed.

Lemma pair_in_range p : In p pairs -> In (snd (row_at p)) strengths.
Proof.
  unfold keyed. rewrite combine_seq_keys. intro H.
  apply in_map_iff in H as (i & <- & Hi). unfold row_at. cbn [fst snd].
  apply in_seq in Hi. rewrite length_map in Hi.
  apply nth_In. lia.
Qed.

Lemma ordered_rows_perm :
  Permutation (ordered_rows true tempi strengths) (combine tempi strengths).
Proof.
  rewrite ordered_rows_as_map, rows_as_map.
  apply Permutation_map, pairs_perm.
Qed.

Lemma ordered_rows_stable s :
  filter (fun r => feqb (snd r) s) (ordered_rows true tempi strengths) =
  filter (fun r => feqb (snd r) s) (combine tempi strengths).
Proof.
  destruct (is_nan s) eqn:Hs.
  - destruct s; try discriminate.
    assert (K : forall l : list (npfloat * npfloat),
              filter (fun r => feqb (snd r) NaN) l = []).
    { induction l as [|r l IH]; [reflexivity|].
      cbn [filter]. rewrite feqb_nan_r. exact IH. }
    rewrite !K. reflexivity.
  - rewrite ordered_rows_as_map, rows_as_map, !filter_map_swap. f_equal.
    assert (K : forall l, (forall p, In p l -> In p pairs) ->
              filter (fun p => feqb (snd (row_at p)) s) l =
              filter (eqv key_lt (O, fopp s)) l).
    { intros l Hl. apply filter_ext_in. intros p Hp.
      rewrite <- (key_eqv_feqb s _ Hs), <- (pair_key p (Hl p Hp)).
      reflexivity. }
    rewrite (K pairs) by auto.
    rewrite (K (mergesort key_lt pairs)).
    + apply pairs_stable.
    + intros p Hp. eapply Permutation_in; [apply pairs_perm | exact Hp].
Qed.

Lemma ordered_rows_descending :
  Forall (fun s => is_nan s = false) strengths ->
  StronglySorted (fun r1 r2 => fleb (snd r2) (snd r1) = true)
    (ordered_rows true tempi strengths).
Proof.
  intro NN. rewrite Forall_forall in NN.
  rewrite ordered_rows_as_map.
  apply StronglySorted_map_in with (R := le key_lt);
    [|apply pairs_sorted].
  intros p q Hp Hq Hle.
  assert (Hp' : In p pairs)
    by (eapply Permutation_in; [apply pairs_perm | exact Hp]).
  assert (Hq' : In q pairs)
    by (eapply Permutation_in; [apply pairs_perm | exact Hq]).
  unfold le, key_lt in Hle.
  rewrite (pair_key p Hp'), (pair_key q Hq') in Hle.
  apply key_le_desc; auto using pair_in_range.
Qed.

End OrderedRows.

(* ------------------------------------------------------------------ *)
(** ** Arrays of finite values *)

Lemma fold_fadd_fin l : forall a,
  fold_left fadd (map Fin l) (Fin a) = Fin (fold_left Qplus l a).
Proof. induction l as [|x l IH]; intro a; simpl; [|rewrite IH]; reflexivity. Qed.

Lemma np_sum_fin l : np_sum (map Fin l) = Fin (fold_left Qplus l 0).
Proof. apply fold_fadd_fin. Qed.

Lemma fold_Qplus_acc l : forall a,
  fold_left Qplus l a == a + fold_left Qplus l 0.
Proof.
  induction l as [|x l IH]; intro a; simpl.
  - ring.
  - rewrite (IH (a + x)), (IH (0 + x)). ring.
Qed.

Lemma qsum_perm l l' :
  Permutation l l' -> fold_left Qplus l 0 == fold_left Qplus l' 0.
Proof.
  induction 1 as [|x l l' _ IH|x y l|l l' l'' _ IH1 _ IH2]; simpl.
  - reflexivity.
  - rewrite (fold_Qplus_acc l), (fold_Qplus_acc l'), IH. reflexivity.
  - rewrite (fold_Qplus_acc l (0 + y + x)), (fold_Qplus_acc l (0 + x + y)). ring.
  - rewrite IH1. exact IH2.
Qed.

Lemma qsum_div l s :
  fold_left Qplus (map (fun x => x / s) l) 0 == fold_left Qplus l 0 / s.
Proof.
  induction l as [|x l IH]; simpl.
  - unfold Qdiv. ring.
  - rewrite (fold_Qplus_acc _ (0 + x / s)), (fold_Qplus_acc l (0 + x)), IH.
    unfold Qdiv. ring.
Qed.

Lemma tempi_of_fin sv qs :
  tempi_of sv (map Fin qs) = map Fin (filter (fun q => Qltb sv q) qs).
Proof. unfold tempi_of. rewrite filter_map_swap. reflexivity. Qed.

Lemma strengths_of_fin sv qs :
  strengths_of sv (map Fin qs) = map Fin (filter (fun q => Qle_bool q sv) qs).
Proof. unfold strengths_of. rewrite filter_map_swap. reflexivity. Qed.

Lemma has_negative_fin l :
  has_negative (map Fin l) = existsb (fun q => Qltb q 0) l.
Proof.
  unfold has_negative. induction l as [|x l IH]; simpl; [|rewrite IH]; reflexivity.
Qed.

Lemma completed_fin tq gq :
  completed (map Fin tq) (map Fin gq) =
  map Fin (if completes (map Fin tq) (map Fin gq)
           then gq ++ [1 - fold_left Qplus gq 0] else gq).
Proof.
  unfold completed. destruct (completes _ _); [|reflexivity].
  rewrite np_sum_fin, map_app. reflexivity.
Qed.

Lemma inject_nat_pos n : (0 < n)%nat -> 0 < inject_Z (Z.of_nat n).
Proof.
  intro H. change 0 with (inject_Z 0). rewrite <- Zlt_Qlt. lia.
Qed.

(** The strengths [load_tempo] ends up with when its input is finite:
    the uniform distribution (divided by zero when normalised) if the
    given strengths sum to zero, the completed strengths (divided by
    that sum when normalised) otherwise. *)
Lemma final_strengths_fin norm tq gq :
  final_strengths norm (map Fin tq) (map Fin gq) =
  if Qeq_bool (fold_left Qplus gq 0) 0
  then map (fun _ => if norm then PInf
                     else Fin (1 / inject_Z (Z.of_nat (length tq)))) tq
  else map (fun x => if norm then Fin (x / fold_left Qplus gq 0) else Fin x)
           (if completes (map Fin tq) (map Fin gq)
            then gq ++ [1 - fold_left Qplus gq 0] else gq).
Proof.
  unfold final_strengths. rewrite completed_fin, np_sum_fin.
  cbn [feqb]. set (s := fold_left Qplus gq 0).
  destruct (Qeq_bool s 0) eqn:Es.
  - unfold np_ones_like. rewrite length_map, !map_map.
    assert (U : forall x, In x tq ->
              fdiv (Fin 1) (of_int (Z.of_nat (length tq))) =
              Fin (1 / inject_Z (Z.of_nat (length tq)))).
    { intros x Hx. unfold of_int. cbn [fdiv].
      assert (P : 0 < inject_Z (Z.of_nat (length tq))).
      { apply inject_nat_pos. destruct tq; [contradiction|simpl; lia]. }
      replace (Qeq_bool (inject_Z (Z.of_nat (length tq))) 0) with false;
        [reflexivity|].
      symmetry. qprop. lra. }
    destruct norm.
    + apply map_ext_in. intros x Hx. rewrite (U x Hx).
      cbn [fdiv]. rewrite Es.
      assert (P : 0 < 1 / inject_Z (Z.of_nat (length tq))).
      { apply Qlt_shift_div_l; [|lra].
        apply inject_nat_pos. destruct tq; [contradiction|simpl; lia]. }
      replace (Qeq_bool (1 / inject_Z (Z.of_nat (length tq))) 0) with false
        by (symmetry; qprop; lra).
      replace (Qle_bool 0 (1 / inject_Z (Z.of_nat (length tq)))) with true
        by (symmetry; qprop; lra).
      reflexivity.
    + apply map_ext_in. exact U.
  - destruct norm; [|reflexivity].
    rewrite map_map. apply map_ext. intro x. cbn [fdiv]. rewrite Es. reflexivity.
Qed.

(* ------------------------------------------------------------------ *)
(** ** Properties of [load_tempo] *)

Lemma final_strengths_no_nan norm tq gq :
  Forall (fun s => is_nan s = false) (final_strengths norm (map Fin tq) (map Fin gq)).
Proof.
  rewrite final_strengths_fin.
  destruct (Qeq_bool _ _); apply Forall_map, Forall_forall; intros x _;
    destruct norm; reflexivity.
Qed.

Lemma StronglySorted_firstn {A : Type} (R : A -> A -> Prop) n : forall l,
  StronglySorted R l -> StronglySorted R (firstn n l).
Proof.
  induction n as [|n IH]; intros l S; [constructor|].
  destruct S as [|a l S F]; simpl; constructor.
  - apply IH, S.
  - rewrite Forall_forall in *. intros x Hx. apply F.
    rewrite <- (firstn_skipn n l). apply in_or_app. left. exact Hx.
Qed.

Lemma StronglySorted_slice_to {A : Type} (R : A -> A -> Prop) m l :
  StronglySorted R l -> StronglySorted R (slice_to m l).
Proof.
  intro S. destruct m as [m|]; [|exact S]. simpl.
  destruct (m <? 0)%Z; apply StronglySorted_firstn, S.
Qed.

Lemma Forall_slice_to {A : Type} (P : A -> Prop) m l :
  Forall P l -> Forall P (slice_to m l).
Proof.
  intro F. destruct m as [m|]; [|exact F]. simpl.
  rewrite Forall_forall in *. intros x Hx. apply F.
  destruct (m <? 0)%Z;
    match type of Hx with In _ (firstn ?n _) =>
      rewrite <- (firstn_skipn n l); apply in_or_app; left; exact Hx end.
Qed.

Section LoadTempoClaims.

Variable world : Type.
Variable np_loadtxt : string -> M world (list Q).

Local Abbreviation load_tempo := (load_tempo world np_loadtxt).
Local Abbreviation load_values := (load_values world np_loadtxt).

(** Whatever the source, the float array holds finite values. *)
Lemma load_values_fin values w vals w1 :
  load_values values w = (Ok vals, w1) -> exists qs, vals = map Fin qs.
Proof.
  destruct values as [l|name]; unfold load_values, bind, ret.
  - intro H. inversion H. eauto.
  - destruct (np_loadtxt name w) as [[l|e] w']; intro H; inversion H. eauto.
Qed.

(** C7: a [max_len] below one makes [load_tempo] raise the
    invalid-argument error at once: the world is left as it was,
    whatever [np.loadtxt] would have done to it, so no input has been
    read. *)
Theorem load_tempo_invalid_max_len values split_value sort norm_strengths m w :
  (m < 1)%Z ->
  load_tempo values split_value sort norm_strengths (Some m) w =
  (Raise (ValueError "`max_len` must be greater or equal to 1"), w).
Proof.
  intro H. rewrite load_tempo_stages. unfold max_len_invalid.
  apply Z.ltb_lt in H. rewrite H. reflexivity.
Qed.

(** C6: when the completion step runs (one more tempo than strengths)
    and the completed strengths contain a negative value, the call
    ends with the assertion error and returns nothing. *)
Theorem load_tempo_negative_completion
    values split_value sort norm_strengths max_len w vals w1 :
  max_len_invalid max_len = false ->
  load_values values w = (Ok vals, w1) ->
  let tempi := tempi_of split_value vals in
  let strengths := strengths_of split_value vals in
  (Z.of_nat (length tempi) - Z.of_nat (length strengths) = 1)%Z ->
  has_negative (strengths ++ [fsub (Fin 1) (np_sum strengths)]) = true ->
  load_tempo values split_value sort norm_strengths max_len w =
  (Raise (AssertionError "strengths must be positive"), w1).
Proof.
  intros Hm Hv tempi strengths Hc Hn.
  rewrite load_tempo_stages, Hm, Hv. cbv zeta.
  fold tempi. fold strengths.
  apply Z.eqb_eq in Hc.
  unfold completed, completes. rewrite Hc, Hn. reflexivity.
Qed.

(** C2: take the rows [load_tempo] returns unsorted and uncut.  With
    [sort=True] the call returns the first [max_len] rows of a
    rearrangement of them that is in descending order of strength and
    stable: rows of equal strength keep the order they have in the
    input.  The input [[100, 120, 0.5, 0.5]] keeps 100 before 120. *)
Theorem load_tempo_sort_stable
    values split_value norm_strengths max_len w rows w' :
  max_len_invalid max_len = false ->
  load_tempo values split_value false norm_strengths None w = (Ok rows, w') ->
  (exists all_sorted,
      load_tempo values split_value true norm_strengths max_len w =
      (Ok (slice_to max_len all_sorted), w') /\
      StronglySorted (fun r1 r2 => fleb (snd r2) (snd r1) = true) all_sorted /\
      StronglySorted (fun r1 r2 => fleb (snd r2) (snd r1) = true)
        (slice_to max_len all_sorted) /\
      Permutation all_sorted rows /\
      forall s, filter (fun r => feqb (snd r) s) all_sorted =
                filter (fun r => feqb (snd r) s) rows) /\
  load_tempo (InMemory [100; 120; 1 # 2; 1 # 2]) 1 true false None w =
  (Ok [(Fin 100, Fin (1 # 2)); (Fin 120, Fin (1 # 2))], w).
Proof.
  intros Hm H. rewrite load_tempo_stages in H. cbn [max_len_invalid] in H.
  destruct (load_values values w) as [[vals|e] w1] eqn:Hv; [|discriminate].
  cbv zeta in H.
  set (tempi := tempi_of split_value vals) in *.
  set (given := strengths_of split_value vals) in *.
  destruct (completes tempi given && has_negative (completed tempi given)) eqn:Hc;
    [discriminate|].
  destruct (length tempi =? length (final_strengths norm_strengths tempi given))%nat
    eqn:Hl; cbn [negb] in H; [|discriminate].
  inversion H; subst w1 rows; clear H.
  pose proof Hl as Hlen. apply Nat.eqb_eq in Hlen.
  destruct (load_values_fin _ _ _ _ Hv) as (qs & Hqs).
  assert (D : StronglySorted (fun r1 r2 => fleb (snd r2) (snd r1) = true)
                (ordered_rows true tempi (final_strengths norm_strengths tempi given))).
  { apply ordered_rows_descending; [exact Hlen|].
    unfold tempi, given. rewrite Hqs, tempi_of_fin, strengths_of_fin.
    apply final_strengths_no_nan. }
  split.
  - exists (ordered_rows true tempi (final_strengths norm_strengths tempi given)).
    split; [|split; [|split; [|split]]].
    + rewrite load_tempo_stages, Hm, Hv. cbv zeta. fold tempi. fold given.
      rewrite Hc, Hl. reflexivity.
    + exact D.
    + apply StronglySorted_slice_to, D.
    + apply ordered_rows_perm, Hlen.
    + intro s. apply ordered_rows_stable, Hlen.
  - vm_compute. reflexivity.
Qed.

End LoadTempoClaims.

(* ------------------------------------------------------------------ *)
(** ** Sums and signs of the returned strengths *)

Lemma fold_fadd_pinf l :
  Forall (fun s => s = PInf) l -> fold_left fadd l PInf = PInf.
Proof.
  induction 1 as [|x l Hx _ IH]; [reflexivity|]. subst x. exact IH.
Qed.

Lemma sum_of_infinities l :
  Forall (fun s => s = PInf) l -> sums_to_one l = false.
Proof.
  intro F. unfold sums_to_one, np_sum. destruct F as [|x l Hx F].
  - reflexivity.
  - subst x. cbn [fold_left fadd]. rewrite fold_fadd_pinf by exact F. reflexivity.
Qed.

Lemma qsum_non_negative l :
  Forall (fun q => 0 <= q) l -> 0 <= fold_left Qplus l 0.
Proof.
  induction 1 as [|x l Hx _ IH]; simpl; [lra|].
  rewrite fold_Qplus_acc. lra.
Qed.

Lemma filter_all {A : Type} (f : A -> bool) l :
  Forall (fun x => f x = true) l -> filter f l = l.
Proof.
  intro F. apply forallb_filter_id, forallb_forall.
  rewrite Forall_forall in F. exact F.
Qed.

Lemma filter_none {A : Type} (f : A -> bool) l :
  Forall (fun x => f x = false) l -> filter f l = [].
Proof.
  induction 1 as [|x l Hx _ IH]; [reflexivity|]. simpl. rewrite Hx. exact IH.
Qed.

Lemma fgtb_not_fleb a b : fgtb a b = true -> fleb a b = false.
Proof.
  unfold fgtb. destruct a, b; simpl; try discriminate; try reflexivity.
  intro H. qprop. lra.
Qed.

Lemma map_snd_combine {A B : Type} (a : list A) : forall b : list B,
  length a = length b -> map snd (combine a b) = b.
Proof.
  induction a as [|x a IH]; intros [|y b] E; try discriminate; [reflexivity|].
  simpl. rewrite IH; [reflexivity|]. simpl in E. lia.
Qed.

Lemma map_slice_to {A B : Type} (f : A -> B) m l :
  map f (slice_to m l) = slice_to m (map f l).
Proof.
  destruct m as [m|]; [|reflexivity]. simpl. rewrite length_map.
  destruct (m <? 0)%Z; symmetry; apply firstn_map.
Qed.

Lemma slice_to_whole {A : Type} m (l : list A) :
  length (slice_to m l) = length l -> slice_to m l = l.
Proof.
  destruct m as [m|]; [|reflexivity]. simpl.
  destruct (m <? 0)%Z; rewrite length_firstn; intro E;
    apply firstn_all2; lia.
Qed.

Lemma length_slice_to {A B : Type} m (a : list A) (b : list B) :
  length a = length b -> length (slice_to m a) = length (slice_to m b).
Proof.
  intro E. destruct m as [m|]; [|exact E]. simpl. rewrite E.
  destruct (m <? 0)%Z; rewrite !length_firstn, E; reflexivity.
Qed.

(** The strengths of the rows are the final strengths, rearranged when
    sorted. *)
Lemma ordered_rows_strengths sort tempi strengths :
  length tempi = length strengths ->
  Permutation (map snd (ordered_rows sort tempi strengths)) strengths.
Proof.
  intro E. destruct sort.
  - rewrite <- (map_snd_combine tempi strengths E) at 2.
    apply Permutation_map, ordered_rows_perm, E.
  - unfold ordered_rows. rewrite map_snd_combine by exact E.
    apply Permutation_refl.
Qed.

Lemma length_ordered_rows sort tempi strengths :
  length tempi = length strengths ->
  length (ordered_rows sort tempi strengths) = length tempi.
Proof.
  intro E.
  rewrite <- (length_map snd),
    (Permutation_length (ordered_rows_strengths sort _ _ E)).
  symmetry. exact E.
Qed.

Section LoadTempoStrengths.

Variable world : Type.
Variable np_loadtxt : string -> M world (list Q).

Local Abbreviation load_tempo := (load_tempo world np_loadtxt).
Local Abbreviation load_values := (load_values world np_loadtxt).

(** What a successful call went through. *)
Lemma load_tempo_ok_inv values split_value sort norm_strengths max_len w out w' :
  load_tempo values split_value sort norm_strengths max_len w = (Ok out, w') ->
  exists qs,
    load_values values w = (Ok (map Fin qs), w') /\
    let tq := filter (fun q => Qltb split_value q) qs in
    let gq := filter (fun q => Qle_bool q split_value) qs in
    tempi_of split_value (map Fin qs) = map Fin tq /\
    strengths_of split_value (map Fin qs) = map Fin gq /\
    max_len_invalid max_len = false /\
    (completes (map Fin tq) (map Fin gq) = true ->
     has_negative (completed (map Fin tq) (map Fin gq)) = false) /\
    length tq = length (final_strengths norm_strengths (map Fin tq) (map Fin gq)) /\
    out = slice_to max_len
            (ordered_rows sort (map Fin tq)
               (final_strengths norm_strengths (map Fin tq) (map Fin gq))).
Proof.
  intro H. rewrite load_tempo_stages in H.
  destruct (max_len_invalid max_len); [discriminate|].
  destruct (load_values values w) as [[vals|e] w1] eqn:Hv; [|discriminate].
  destruct (load_values_fin _ _ _ _ _ _ Hv) as (qs & ->).
  cbv zeta in H. rewrite tempi_of_fin, strengths_of_fin in H.
  exists qs. cbv zeta.
  set (tq := filter (fun q => Qltb split_value q) qs) in *.
  set (gq := filter (fun q => Qle_bool q split_value) qs) in *.
  destruct (completes (map Fin tq) (map Fin gq)
            && has_negative (completed (map Fin tq) (map Fin gq))) eqn:Hc;
    [discriminate|].
  destruct (length (map Fin tq)
            =? length (final_strengths norm_strengths (map Fin tq) (map Fin gq)))%nat
    eqn:Hl; cbn [negb] in H; [|discriminate].
  apply Nat.eqb_eq in Hl. rewrite length_map in Hl.
  inversion H; subst.
  repeat split; auto using tempi_of_fin, strengths_of_fin.
  intro C. rewrite C in Hc. exact Hc.
Qed.

(** C10: when every value exceeds [split_value] no strength is given,
    the captured sum is zero, and with [norm_strengths=True] the
    uniform strengths are divided by that zero: the call raises
    nothing, every returned strength is [inf], and the strengths do
    not sum to 1. *)
Theorem load_tempo_divides_by_zero_sum
    values split_value sort max_len w vals w1 :
  max_len_invalid max_len = false ->
  load_values values w = (Ok vals, w1) ->
  Forall (fun v => fgtb v (Fin split_value) = true) vals ->
  exists out,
    load_tempo values split_value sort true max_len w = (Ok out, w1) /\
    Forall (fun r => snd r = PInf) out /\
    sums_to_one (map snd out) = false.
Proof.
  intros Hm Hv Hall.
  destruct (load_values_fin _ _ _ _ _ _ Hv) as (qs & ->).
  assert (Ht : tempi_of split_value (map Fin qs) = map Fin qs)
    by (apply filter_all, Hall).
  assert (Hg : strengths_of split_value (map Fin qs) = map Fin [])
    by (apply filter_none; eapply Forall_impl; [|exact Hall];
        intros v; apply fgtb_not_fleb).
  assert (Hf : final_strengths true (map Fin qs) (map Fin []) =
               map (fun _ => PInf) qs)
    by (rewrite final_strengths_fin; reflexivity).
  assert (Hn : has_negative (completed (map Fin qs) (map Fin [])) = false)
    by (rewrite completed_fin, has_negative_fin;
        destruct (completes _ _); reflexivity).
  assert (Hl : length (map Fin qs) = length (map (fun _ : Q => PInf) qs))
    by (rewrite !length_map; reflexivity).
  eexists. split; [|split].
  - rewrite load_tempo_stages, Hm, Hv. cbv zeta.
    rewrite Ht, Hg, Hn, andb_false_r, Hf, Hl, Nat.eqb_refl. reflexivity.
  - apply Forall_slice_to.
    assert (F : Forall (fun s => s = PInf)
                  (map snd (ordered_rows sort (map Fin qs) (map (fun _ => PInf) qs)))).
    { eapply Permutation_Forall;
        [apply Permutation_sym, ordered_rows_strengths, Hl|].
      apply Forall_map, Forall_forall. reflexivity. }
    rewrite Forall_map in F. exact F.
  - apply sum_of_infinities. rewrite map_slice_to.
    apply Forall_slice_to.
    eapply Permutation_Forall;
      [apply Permutation_sym, ordered_rows_strengths, Hl|].
    apply Forall_map, Forall_forall. reflexivity.
Qed.

(** C8, amended: when no strength found in the input is negative,
    no returned strength is. *)
Theorem load_tempo_strengths_non_negative
    values split_value sort norm_strengths max_len w vals w1 out w' :
  load_values values w = (Ok vals, w1) ->
  Forall (fun s => non_negative s = true) (strengths_of split_value vals) ->
  load_tempo values split_value sort norm_strengths max_len w = (Ok out, w') ->
  Forall (fun r => non_negative (snd r) = true) out.
Proof.
  intros Hv Hnn H.
  destruct (load_tempo_ok_inv _ _ _ _ _ _ _ _ H)
    as (qs & Hv' & Ht & Hg & Hm & Hc & Hl & ->).
  rewrite Hv in Hv'. inversion Hv'; subst vals w1. clear Hv'.
  rewrite Hg in Hnn. clear Ht Hg.
  set (tq := filter (fun q => Qltb split_value q) qs) in *.
  set (gq := filter (fun q => Qle_bool q split_value) qs) in *.
  assert (G : Forall (fun q => 0 <= q) gq).
  { rewrite Forall_map in Hnn. eapply Forall_impl; [|exact Hnn].
    intros q Hq. unfold non_negative in Hq. cbn [fleb] in Hq. qprop. exact Hq. }
  assert (Hl' : length (map Fin tq) =
                length (final_strengths norm_strengths (map Fin tq) (map Fin gq)))
    by (rewrite length_map; exact Hl).
  apply Forall_slice_to.
  apply (Forall_map snd (fun s => non_negative s = true)).
  eapply Permutation_Forall;
    [apply Permutation_sym, ordered_rows_strengths, Hl'|].
  rewrite final_strengths_fin.
  pose proof (qsum_non_negative gq G) as Spos.
  set (S := fold_left Qplus gq 0) in *.
  destruct (Qeq_bool S 0) eqn:Es.
  - apply Forall_map, Forall_forall. intros x Hx.
    destruct norm_strengths; [reflexivity|].
    unfold non_negative. cbn [fleb]. qprop.
    assert (P : 0 < inject_Z (Z.of_nat (length tq)))
      by (apply inject_nat_pos; destruct tq; [contradiction|simpl; lia]).
    apply Qle_shift_div_l; [exact P|lra].
  - assert (L : Forall (fun q => 0 <= q)
                  (if completes (map Fin tq) (map Fin gq)
                   then gq ++ [1 - S] else gq)).
    { destruct (completes (map Fin tq) (map Fin gq)) eqn:C; [|exact G].
      apply Forall_app. split; [exact G|].
      specialize (Hc eq_refl).
      rewrite completed_fin, C, has_negative_fin, existsb_app in Hc.
      apply orb_false_iff in Hc as [_ Hc]. cbn [existsb] in Hc.
      rewrite orb_false_r in Hc. fold S in Hc.
      constructor; [|constructor]. qprop. exact Hc. }
    apply Forall_map. eapply Forall_impl; [|exact L].
    intros x Hx. unfold non_negative.
    destruct norm_strengths; cbn [fleb]; qprop; [|exact Hx].
    apply Qle_shift_div_l; lra.
Qed.

(** C1, amended: the result has one row for every tempo kept, each
    with its strength.  With [norm_strengths=True] the rows are those
    of the strengths, completed and made uniform as without the flag,
    each divided by the sum of the strengths found in the input (the
    sum taken before the completion and the uniform distribution);
    when as many strengths as tempi are given, their sum is not zero
    and all the tempi are returned, the returned strengths sum to 1. *)
Theorem load_tempo_normalised
    values split_value sort norm_strengths max_len w vals w1 out w' :
  load_values values w = (Ok vals, w1) ->
  load_tempo values split_value sort norm_strengths max_len w = (Ok out, w') ->
  let tempi := tempi_of split_value vals in
  let given := strengths_of split_value vals in
  length out = length (slice_to max_len tempi) /\
  (norm_strengths = true ->
   out =
   slice_to max_len
     (ordered_rows sort tempi
        (map (fun s => fdiv s (np_sum given))
           (final_strengths false tempi given)))) /\
  (norm_strengths = true ->
   length given = length tempi ->
   feqb (np_sum given) (Fin 0) = false ->
   length out = length tempi ->
   sums_to_one (map snd out) = true).
Proof.
  intros Hv H tempi given.
  destruct (load_tempo_ok_inv _ _ _ _ _ _ _ _ H)
    as (qs & Hv' & Ht & Hg & Hm & Hc & Hl & Hout).
  rewrite Hv in Hv'. inversion Hv'; subst vals w1. clear Hv'.
  unfold tempi, given. rewrite Ht, Hg. clear tempi given Ht Hg.
  set (tq := filter (fun q => Qltb split_value q) qs) in *.
  set (gq := filter (fun q => Qle_bool q split_value) qs) in *.
  assert (Hl' : length (map Fin tq) =
                length (final_strengths norm_strengths (map Fin tq) (map Fin gq)))
    by (rewrite length_map; exact Hl).
  split; [|split].
  - subst out. apply length_slice_to, length_ordered_rows, Hl'.
  - intros ->. subst out. reflexivity.
  - intros -> Hsame Hnz Hall. rewrite np_sum_fin in Hnz. cbn [feqb] in Hnz.
    assert (Hwhole : out = ordered_rows sort (map Fin tq)
                             (final_strengths true (map Fin tq) (map Fin gq))).
    { subst out. apply slice_to_whole.
      rewrite Hall. symmetry. apply length_ordered_rows, Hl'. }
    pose proof (ordered_rows_strengths sort _ _ Hl') as P.
    rewrite <- Hwhole in P. rewrite final_strengths_fin, Hnz in P.
    assert (C : completes (map Fin tq) (map Fin gq) = false).
    { unfold completes. rewrite Hsame. apply Z.eqb_neq. lia. }
    rewrite C in P.
    rewrite <- (map_map (fun x => x / fold_left Qplus gq 0) Fin) in P.
    destruct (Permutation_map_inv _ _ P) as (l & E & Pl).
    unfold sums_to_one. rewrite E, np_sum_fin. cbn [feqb]. qprop.
    rewrite <- (qsum_perm _ _ Pl), qsum_div.
    apply Qmult_inv_r. exact Hnz.
Qed.

End LoadTempoStrengths.

(* ------------------------------------------------------------------ *)
(** ** Properties of the writers *)

Section WriterClaims.

Variable world : Type.
Variable np_savetxt : string -> ndarray -> fmt_spec -> string -> string -> M world unit.

Local Abbreviation write_tempo := (write_tempo world np_savetxt).
Local Abbreviation write_events := (write_events world np_savetxt).
Local Abbreviation write_onsets := (write_onsets world np_savetxt).
Local Abbreviation write_beats := (write_beats world np_savetxt).
Local Abbreviation write_chords := (write_chords world np_savetxt).

(** The line [write_tempo] writes for a triple. *)
Local Abbreviation save_line filename t1 t2 strength :=
  (np_savetxt filename (Arr2 [[t1; t2; strength]]) tempo_fmt " " "").

Lemma column_world rows j w :
  snd (column world rows j w) = w.
Proof.
  induction rows as [|row rows IH]; simpl; [reflexivity|].
  destruct (nth_error row j); [|reflexivity].
  unfold bind. destruct (column world rows j w) as [[xs|e] w0]; simpl in *; exact IH.
Qed.

(** C3, amended: for a single row that starts with the tempo [t1],
    the second tempo is made up ([t1 * 2] below 68 bpm, [t1 / 2]
    otherwise) and the strength is 1; that triple is returned unless
    [mirex] is set and [t1] exceeds the made-up tempo, in which case
    the two tempi are returned swapped, with strength [1 - 1]. *)
Theorem write_tempo_single_row tempi filename mirex t1 rest w w' :
  np_array_ndmin2 tempi = [Fin t1 :: rest] ->
  let t2 := fake_second_tempo t1 in
  (mirex = false \/ t1 <= t2 ->
   save_line filename (Fin t1) (Fin t2) (Fin 1) w = (Ok tt, w') ->
   write_tempo tempi filename mirex w = (Ok (Fin t1, Fin t2, Fin 1), w')) /\
  (mirex = true /\ t2 < t1 ->
   save_line filename (Fin t2) (Fin t1) (Fin (1 - 1)) w = (Ok tt, w') ->
   write_tempo tempi filename mirex w = (Ok (Fin t2, Fin t1, Fin (1 - 1)), w')).
Proof.
  intros E t2.
  assert (B : forall r : npfloat * npfloat * npfloat,
    (let '(a, b, s) := r in save_line filename a b s w = (Ok tt, w')) ->
    r = (if mirex && Qltb t2 t1
         then (Fin t2, Fin t1, Fin (1 - 1))
         else (Fin t1, Fin t2, Fin 1)) ->
    write_tempo tempi filename mirex w = (Ok r, w')).
  { intros r Hs Hr. unfold write_tempo.
    rewrite E. cbn [length Nat.eqb item nth_error]. unfold bind, ret.
    cbn [fltb]. unfold t2, fake_second_tempo in *.
    change (fmul (Fin t1) (Fin 2)) with (Fin (t1 * 2)).
    change (fdiv (Fin t1) (Fin 2)) with (Fin (t1 / 2)).
    destruct (Qltb t1 68); unfold fgtb; cbn [fltb];
      change (fsub (Fin 1) (Fin 1)) with (Fin (1 - 1));
      destruct (mirex && _); subst r; rewrite Hs; reflexivity. }
  split.
  - intros Hcase Hs. apply B; [exact Hs|].
    replace (mirex && Qltb t2 t1) with false; [reflexivity|].
    symmetry. destruct Hcase as [-> | Hle]; [reflexivity|].
    apply andb_false_iff. right. qprop. exact Hle.
  - intros [-> Hlt] Hs. apply B; [exact Hs|].
    replace (Qltb t2 t1) with true; [reflexivity|].
    symmetry. qprop. exact Hlt.
Qed.

(** C5, amended: an input whose array, made 2-d, has no rows is the
    2-d array without rows (a scalar, a list or a 1-d array, also an
    empty one, becomes one row), and it gets the default triple
    (0, 0, 1), whatever the [mirex] flag. *)
Theorem write_tempo_no_rows tempi filename mirex w w' :
  length (np_array_ndmin2 tempi) = 0%nat ->
  save_line filename (Fin 0) (Fin 0) (Fin 1) w = (Ok tt, w') ->
  tempi = Mat [] /\
  write_tempo tempi filename mirex w = (Ok (Fin 0, Fin 0, Fin 1), w').
Proof.
  intros E Hs. split.
  - destruct tempi as [x|xs|rows]; try discriminate.
    destruct rows; [reflexivity|discriminate].
  - unfold write_tempo.
    destruct (np_array_ndmin2 tempi); [|discriminate].
    cbn [length Nat.eqb Nat.ltb Nat.leb]. unfold bind, ret.
    replace (mirex && fgtb (Fin 0) (Fin 0)) with false
      by (rewrite andb_false_r; reflexivity).
    rewrite Hs. reflexivity.
Qed.

(** Choosing the two tempi and their strength reads the array only:
    the world is the same afterwards. *)
Lemma item_world a i j w : snd (item world a i j w) = w.
Proof.
  unfold item. destruct (nth_error a i) as [row|]; [|reflexivity].
  destruct (nth_error row j); reflexivity.
Qed.

(** C4: let [(t1, t2, strength)] be the triple computed without the
    [mirex] flag.  With the flag, if [t1 > t2] the call returns
    [(t2, t1, 1 - strength)], and if [t1 <= t2] it returns the same
    triple as without the flag. *)
Theorem write_tempo_mirex tempi filename t1 t2 strength w w0 :
  write_tempo tempi filename false w = (Ok (t1, t2, strength), w0) ->
  (forall w',
      fgtb t1 t2 = true ->
      save_line filename t2 t1 (fsub (Fin 1) strength) w = (Ok tt, w') ->
      write_tempo tempi filename true w =
      (Ok (t2, t1, fsub (Fin 1) strength), w')) /\
  (fleb t1 t2 = true ->
   write_tempo tempi filename true w = (Ok (t1, t2, strength), w0)).
Proof.
  unfold write_tempo. cbv zeta.
  set (a := np_array_ndmin2 tempi).
  match goal with
  | |- bind ?b _ w = _ -> _ => set (chosen := b)
  end.
  assert (P : snd (chosen w) = w).
  { unfold chosen, bind.
    destruct (length a =? 1)%nat.
    - pose proof (item_world a 0 0 w) as I.
      destruct (item world a 0 0 w) as [[x|e] w1]; simpl in I; subst w1;
        [|reflexivity].
      destruct (fltb x (Fin 68)); reflexivity.
    - destruct (1 <? length a)%nat; [|reflexivity].
      pose proof (column_world (firstn 2 a) 0 w) as C0.
      destruct (column world (firstn 2 a) 0 w) as [[ts|e] w1]; simpl in C0;
        subst w1; [|reflexivity].
      destruct ts as [|x1 [|x2 [|x3 ts]]]; try reflexivity.
      pose proof (item_world a 0 1 w) as I.
      destruct (item world a 0 1 w) as [[s0|e] w1]; simpl in I; subst w1;
        [|reflexivity].
      pose proof (column_world (firstn 2 a) 1 w) as C1.
      destruct (column world (firstn 2 a) 1 w) as [[ss|e] w1]; simpl in C1;
        subst w1; reflexivity. }
  unfold bind at 1 3 5.
  destruct (chosen w) as [[[[x1 x2] s]|e] w1]; simpl in P; subst w1;
    [|discriminate].
  cbn [andb]. unfold bind, ret. intro H.
  destruct (save_line filename x1 x2 s w) as [[[]|e] w1] eqn:Hs;
    [|discriminate].
  inversion H; subst x1 x2 s w1. clear H.
  split.
  - intros w' Hgt Hs'. rewrite Hgt, Hs'. reflexivity.
  - intro Hle. rewrite (fleb_not_gt _ _ Hle), Hs. reflexivity.
Qed.

(** [write_events], [write_onsets] and [write_chords] hand their
    argument back. *)
Lemma write_events_returns_input events filename fmt delimiter header w r w' :
  write_events events filename fmt delimiter header w = (Ok r, w') ->
  r = PyArray events.
Proof.
  unfold write_events, bind, ret.
  destruct (np_savetxt _ _ _ _ _ w) as [[[]|e] w1]; intro H; inversion H.
  reflexivity.
Qed.

Lemma write_onsets_returns_input events filename fmt delimiter header w r w' :
  write_onsets events filename fmt delimiter header w = (Ok r, w') ->
  r = PyArray events.
Proof. apply write_events_returns_input. Qed.

Lemma write_chords_returns_input chords filename w r w' :
  write_chords chords filename w = (Ok r, w') -> r = PyChords chords.
Proof.
  unfold write_chords, bind, ret.
  destruct (np_savetxt _ _ _ _ _ w) as [[[]|e] w1]; intro H; inversion H.
  reflexivity.
Qed.

(** [write_beats] has no [return]: whenever it ends normally its
    caller gets [None]. *)
Lemma write_beats_result beats filename kwargs w r w' :
  write_beats beats filename kwargs w = (Ok r, w') -> r = PyNone.
Proof.
  unfold write_beats.
  destruct (bind_kwargs kwargs tab "") as [[d h]|e];
    [|unfold raise; intro H; inversion H].
  unfold bind, ret.
  match goal with
  | |- match ?c with _ => _ end = _ -> _ => destruct c as [[x|e] w1]
  end; intro H; inversion H; reflexivity.
Qed.

End WriterClaims.

(* ------------------------------------------------------------------ *)
(** ** Runs on concrete inputs *)

(** C9: [write_beats] writes the beats and then returns [None], not the
    array it was given; [write_events] returns the array for the same
    input. *)
Theorem write_beats_returns_none :
  Log.write_beats (Vec [1; 2]) "beats.txt" [] Log.empty =
  (Ok PyNone,
   Log.log (Log.Savetxt "beats.txt" (Arr1 [Fin 1; Fin 2]) (Fmt "%.3f") tab "")
     Log.empty) /\
  Log.write_events (Vec [1; 2]) "beats.txt" (Fmt "%.3f") tab "" Log.empty =
  (Ok (PyArray (Vec [1; 2])),
   Log.log (Log.Savetxt "beats.txt" (Arr1 [Fin 1; Fin 2]) (Fmt "%.3f") tab "")
     Log.empty).
Proof. split; reflexivity. Qed.

(** Cutting the result to [max_len] rows after the normalisation leaves
    strengths that sum to less than 1. *)
Lemma truncated_strengths_sum_below_one :
  Log.load_tempo (InMemory [120; 60; 1 # 2; 1 # 2]) 1 false true (Some 1%Z)
    Log.empty =
  (Ok [(Fin 120, Fin (4 # 8))], Log.empty) /\
  sums_to_one (map snd [(Fin 120, Fin (4 # 8))]) = false.
Proof. split; reflexivity. Qed.

(** The normalisation divides the completed strengths by the sum taken
    before the completion: [120, 60, 0.7] gives the strengths 1 and
    3/7. *)
Lemma completed_strengths_divided_by_early_sum :
  Log.load_tempo (InMemory [120; 60; 7 # 10]) 1 false true None Log.empty =
  (Ok [(Fin 120, Fin (70 # 70)); (Fin 60, Fin (30 # 70))], Log.empty) /\
  sums_to_one (map snd [(Fin 120, Fin (70 # 70)); (Fin 60, Fin (30 # 70))]) = false.
Proof. split; reflexivity. Qed.

(** A negative strength given in full (as many strengths as tempi) is
    returned as it is. *)
Lemma load_tempo_returns_negative_strength :
  Log.load_tempo (InMemory [120; - (1 # 2)]) 1 false false None Log.empty =
  (Ok [(Fin 120, Fin (- (1 # 2)))], Log.empty) /\
  non_negative (Fin (- (1 # 2))) = false.
Proof. split; reflexivity. Qed.

(** With [mirex] set, the single row [[120, 0.6]] is reported as
    (60, 120, 0): first tempo and strength are not those of the row. *)
Lemma mirex_swaps_single_row :
  fst (Log.write_tempo (Mat [[120; 3 # 5]]) "out" true Log.empty) =
  Ok (Fin (120 / 2), Fin 120, Fin (1 - 1)) /\
  feqb (Fin (120 / 2)) (Fin 120) = false /\
  feqb (Fin (1 - 1)) (Fin 1) = false.
Proof. repeat split; reflexivity. Qed.

(** An empty list or empty 1-d array is one row without columns, not
    zero rows: the single-tempo branch runs and fails on its first
    element, with either value of [mirex], and nothing is written. *)
Lemma write_tempo_empty_vector :
  np_array_ndmin2 (Vec []) = [[]] /\
  Log.write_tempo (Vec []) "out" false Log.empty =
  (Raise (IndexError "index out of bounds"), Log.empty) /\
  Log.write_tempo (Vec []) "out" true Log.empty =
  (Raise (IndexError "index out of bounds"), Log.empty).
Proof. repeat split; reflexivity. Qed.

Lemma load_tempo_invalid_max_len_witness :
  Log.load_tempo (FromFile "tempo.txt") 1 true true (Some 0%Z) Log.empty =
  (Raise (ValueError "`max_len` must be greater or equal to 1"), Log.empty).
Proof.
  apply (load_tempo_invalid_max_len Log.world Log.np_loadtxt). lia.
Defined.

Lemma load_tempo_negative_completion_witness :
  Log.load_tempo (InMemory [100; 120; 3 # 2]) 2 false false None Log.empty =
  (Raise (AssertionError "strengths must be positive"), Log.empty).
Proof.
  apply (load_tempo_negative_completion Log.world Log.np_loadtxt
           (InMemory [100; 120; 3 # 2]) 2 false false None Log.empty
           (map Fin [100; 120; 3 # 2]) Log.empty);
    reflexivity.
Defined.

Lemma load_tempo_sort_stable_witness :
  exists all_sorted,
    Log.load_tempo (InMemory [100; 120; 90; 1 # 4; 1 # 2; 1 # 4]) 1 true false
      (Some 2%Z) Log.empty =
    (Ok (slice_to (Some 2%Z) all_sorted), Log.empty) /\
    StronglySorted (fun r1 r2 => fleb (snd r2) (snd r1) = true) all_sorted /\
    StronglySorted (fun r1 r2 => fleb (snd r2) (snd r1) = true)
      (slice_to (Some 2%Z) all_sorted) /\
    Permutation all_sorted
      [(Fin 100, Fin (1 # 4)); (Fin 120, Fin (1 # 2)); (Fin 90, Fin (1 # 4))] /\
    forall s,
      filter (fun r => feqb (snd r) s) all_sorted =
      filter (fun r => feqb (snd r) s)
        [(Fin 100, Fin (1 # 4)); (Fin 120, Fin (1 # 2)); (Fin 90, Fin (1 # 4))].
Proof.
  apply (load_tempo_sort_stable Log.world Log.np_loadtxt
           (InMemory [100; 120; 90; 1 # 4; 1 # 2; 1 # 4]) 1 false (Some 2%Z)
           Log.empty _ Log.empty);
    reflexivity.
Defined.

Lemma load_tempo_divides_by_zero_sum_witness :
  exists out,
    Log.load_tempo (InMemory [120; 100]) 1 false true None Log.empty =
    (Ok out, Log.empty) /\
    Forall (fun r => snd r = PInf) out /\
    sums_to_one (map snd out) = false.
Proof.
  apply (load_tempo_divides_by_zero_sum Log.world Log.np_loadtxt
           (InMemory [120; 100]) 1 false None Log.empty
           (map Fin [120; 100]) Log.empty);
    [reflexivity | reflexivity | repeat constructor].
Defined.

Lemma load_tempo_strengths_non_negative_witness :
  Forall (fun r => non_negative (snd r) = true)
    [(Fin 120, Fin (7 # 10)); (Fin 60, Fin (1 - (0 + (7 # 10))))].
Proof.
  apply (load_tempo_strengths_non_negative Log.world Log.np_loadtxt
           (InMemory [120; 60; 7 # 10]) 1 false false None Log.empty
           (map Fin [120; 60; 7 # 10]) Log.empty _ Log.empty);
    [reflexivity | repeat constructor | reflexivity].
Defined.

Lemma load_tempo_normalised_witness :
  sums_to_one (map snd [(Fin 120, Fin (8 # 12)); (Fin 60, Fin (8 # 24))]) = true.
Proof.
  pose proof (load_tempo_normalised Log.world Log.np_loadtxt
                (InMemory [120; 60; 1 # 2; 1 # 4]) 1 true true None Log.empty
                (map Fin [120; 60; 1 # 2; 1 # 4]) Log.empty
                [(Fin 120, Fin (8 # 12)); (Fin 60, Fin (8 # 24))] Log.empty
                eq_refl eq_refl) as H.
  cbv zeta in H. destruct H as (_ & _ & H). apply H; reflexivity.
Defined.

Lemma write_tempo_single_row_witness :
  Log.write_tempo (Mat [[60; 3 # 5]]) "out" true Log.empty =
  (Ok (Fin 60, Fin (fake_second_tempo 60), Fin 1),
   Log.log (Log.Savetxt "out"
              (Arr2 [[Fin 60; Fin (fake_second_tempo 60); Fin 1]]) tempo_fmt " " "")
     Log.empty).
Proof.
  apply (write_tempo_single_row Log.world Log.np_savetxt
           (Mat [[60; 3 # 5]]) "out" true 60 [Fin (3 # 5)] Log.empty _ eq_refl).
  - right. vm_compute. discriminate.
  - reflexivity.
Defined.

Lemma write_tempo_mirex_witness :
  Log.write_tempo (Mat [[120; 3 # 5]; [100; 2 # 5]]) "out" true Log.empty =
  (Ok (Fin 100, Fin 120, fsub (Fin 1) (Fin (75 # 125))),
   Log.log (Log.Savetxt "out"
              (Arr2 [[Fin 100; Fin 120; fsub (Fin 1) (Fin (75 # 125))]])
              tempo_fmt " " "")
     Log.empty).
Proof.
  apply (write_tempo_mirex Log.world Log.np_savetxt
           (Mat [[120; 3 # 5]; [100; 2 # 5]]) "out"
           (Fin 120) (Fin 100) (Fin (75 # 125)) Log.empty
           (Log.log (Log.Savetxt "out"
                       (Arr2 [[Fin 120; Fin 100; Fin (75 # 125)]]) tempo_fmt " " "")
              Log.empty));
    reflexivity.
Defined.

Lemma write_tempo_no_rows_witness :
  Mat [] = Mat [] /\
  Log.write_tempo (Mat []) "out" true Log.empty =
  (Ok (Fin 0, Fin 0, Fin 1),
   Log.log (Log.Savetxt "out" (Arr2 [[Fin 0; Fin 0; Fin 1]]) tempo_fmt " " "")
     Log.empty).
Proof.
  apply (write_tempo_no_rows Log.world Log.np_savetxt); reflexivity.
Defined.

(* ------------------------------------------------------------------ *)
(** ** Further properties of [write_tempo] *)

Section WriteTempoFacts.

Variable world : Type.
Variable np_savetxt : string -> ndarray -> fmt_spec -> string -> string -> M world unit.

Local Abbreviation write_tempo := (write_tempo world np_savetxt).

(** Writing the line of a triple and returning the triple. *)
Local Abbreviation report filename r w :=
  (match np_savetxt filename
           (Arr2 [[fst (fst r); snd (fst r); snd r]]) tempo_fmt " " "" w with
   | (Ok _, w') => (Ok r, w')
   | (Raise e, w') => (Raise e, w')
   end).

Lemma write_tempo_reports tempi filename mirex w :
  write_tempo tempi filename mirex w =
  match dominant_tempi (np_array_ndmin2 tempi) with
  | Raise e => (Raise e, w)
  | Ok r => report filename (mirex_order mirex r) w
  end.
Proof.
  assert (T : forall r : npfloat * npfloat * npfloat,
    (let '(t1, t2, strength) := r in
     let '(t1, t2, strength) :=
       if mirex && fgtb t1 t2
       then (t2, t1, fsub (Fin 1) strength)
       else (t1, t2, strength) in
     bind (np_savetxt filename (Arr2 [[t1; t2; strength]]) tempo_fmt " " "")
          (fun _ => ret (t1, t2, strength))) w =
    report filename (mirex_order mirex r) w).
  { intros [[t1 t2] s]. unfold mirex_order.
    destruct (mirex && fgtb t1 t2); unfold bind, ret; cbn [fst snd];
      destruct (np_savetxt _ _ _ _ _ w) as [[[]|e] w']; reflexivity. }
  unfold write_tempo. cbv zeta.
  destruct (np_array_ndmin2 tempi) as [|r1 [|r2 rest]].
  - exact (T (Fin 0, Fin 0, Fin 1)).
  - destruct r1 as [|t1 c1]; [reflexivity|].
    cbv beta iota delta [bind ret item nth_error length Nat.eqb dominant_tempi].
    destruct (fltb t1 (Fin 68)).
    + exact (T (t1, fmul t1 (Fin 2), Fin 1)).
    + exact (T (t1, fdiv t1 (Fin 2), Fin 1)).
  - destruct r1 as [|t1 [|s1 c1]]; destruct r2 as [|t2 [|s2 c2]];
      try reflexivity.
    exact (T (t1, t2, fdiv s1 (np_sum [s1; s2]))).
Qed.

Lemma div2_is_finite x : fdiv (Fin x) (Fin 2) = Fin (x / 2).
Proof. reflexivity. Qed.

Lemma dominant_tempi_finite tempi t1 t2 s :
  dominant_tempi (np_array_ndmin2 tempi) = Ok (t1, t2, s) ->
  exists x y, t1 = Fin x /\ t2 = Fin y.
Proof.
  assert (R : forall row : list Q,
    dominant_tempi [map Fin row] = Ok (t1, t2, s) ->
    exists x y, t1 = Fin x /\ t2 = Fin y).
  { intros [|x row]; [discriminate|]. cbn [map dominant_tempi fltb].
    destruct (Qltb x 68); intro H; inversion H; subst;
      [exists x, (x * 2) | exists x, (x / 2)]; split; reflexivity. }
  destruct tempi as [x|xs|rows]; cbn [np_array_ndmin2].
  - exact (R [x]).
  - exact (R xs).
  - destruct rows as [|r1 [|r2 rest]]; cbn [map].
    + intro H. inversion H; subst. exists 0, 0. split; reflexivity.
    + exact (R r1).
    + destruct r1 as [|x [|s1 c1]]; destruct r2 as [|y [|s2 c2]];
        try discriminate.
      cbn [map dominant_tempi]. intro H. inversion H; subst.
      exists x, y. split; reflexivity.
Qed.

(** X1: with [mirex] set, the first tempo returned is never above the
    second. *)
Theorem mirex_reports_lower_tempo_first tempi filename w t1 t2 strength w' :
  write_tempo tempi filename true w = (Ok (t1, t2, strength), w') ->
  fleb t1 t2 = true.
Proof.
  rewrite write_tempo_reports.
  destruct (dominant_tempi (np_array_ndmin2 tempi)) as [[[a b] s]|e] eqn:D;
    [|discriminate].
  destruct (dominant_tempi_finite _ _ _ _ D) as (x & y & -> & ->).
  destruct (np_savetxt _ _ _ _ _ w) as [[[]|e] w1]; [|discriminate].
  unfold mirex_order. cbn [andb]. unfold fgtb. cbn [fltb].
  destruct (Qltb y x) eqn:E; intro H; inversion H; subst; cbn [fleb]; qprop; lra.
Qed.

(** X2: the triple returned is the line that was written: the call
    returns only after [np.savetxt] has taken exactly that line, and
    leaves the world as [np.savetxt] left it. *)
Theorem write_tempo_returns_written_line tempi filename mirex w t1 t2 strength w' :
  write_tempo tempi filename mirex w = (Ok (t1, t2, strength), w') ->
  np_savetxt filename (Arr2 [[t1; t2; strength]]) tempo_fmt " " "" w = (Ok tt, w').
Proof.
  rewrite write_tempo_reports.
  destruct (dominant_tempi (np_array_ndmin2 tempi)) as [r|e]; [|discriminate].
  destruct (mirex_order mirex r) as [[a b] s]. cbn [fst snd].
  destruct (np_savetxt _ _ _ _ _ w) as [[[]|e] w1] eqn:S; [|discriminate].
  intro H. inversion H; subst. exact S.
Qed.

(** X4: when a column that is needed is missing (a single row without
    elements, as the empty list gives, or an array of two or more rows
    with fewer than two columns), the call raises [IndexError] and
    nothing is written. *)
Theorem write_tempo_missing_column tempi filename mirex w :
  np_array_ndmin2 tempi = [[]] \/
  (exists row1 row2 rest,
      np_array_ndmin2 tempi = row1 :: row2 :: rest /\
      Forall (fun r => length r = length row1) (row2 :: rest) /\
      (length row1 < 2)%nat) ->
  write_tempo tempi filename mirex w =
  (Raise (IndexError "index out of bounds"), w).
Proof.
  rewrite write_tempo_reports.
  intros [-> | (r1 & r2 & rest & -> & F & H)]; [reflexivity|].
  apply Forall_inv in F.
  destruct r1 as [|t1 [|s1 c1]]; destruct r2 as [|t2 [|s2 c2]];
    try reflexivity; simpl in *; lia.
Qed.

End WriteTempoFacts.

(* ------------------------------------------------------------------ *)
(** ** Further properties of [load_tempo] *)

Lemma map_fst_combine {A B : Type} (a : list A) : forall b : list B,
  length a = length b -> map fst (combine a b) = a.
Proof.
  induction a as [|x a IH]; intros [|y b] E; try discriminate; [reflexivity|].
  simpl. rewrite IH; [reflexivity|]. simpl in E. lia.
Qed.

Lemma length_slice_to_some {A : Type} m (l : list A) :
  (1 <= m)%Z -> length (slice_to (Some m) l) = Nat.min (Z.to_nat m) (length l).
Proof.
  intro H. simpl. replace (m <? 0)%Z with false by (symmetry; apply Z.ltb_ge; lia).
  apply length_firstn.
Qed.

Lemma qsum_constant (c : Q) {A : Type} (l : list A) :
  fold_left Qplus (map (fun _ => c) l) 0 == inject_Z (Z.of_nat (length l)) * c.
Proof.
  induction l as [|x l IH].
  - simpl. ring.
  - cbn [map fold_left length]. rewrite fold_Qplus_acc, IH.
    rewrite Nat2Z.inj_succ. unfold Z.succ. rewrite inject_Z_plus. ring.
Qed.

(** Strengths that are a rearrangement of finite values with sum 1. *)
Lemma sums_to_one_perm l ql :
  Permutation l (map Fin ql) -> fold_left Qplus ql 0 == 1 ->
  sums_to_one l = true.
Proof.
  intros P E. destruct (Permutation_map_inv _ _ P) as (l' & -> & P').
  unfold sums_to_one. rewrite np_sum_fin. cbn [feqb]. qprop.
  rewrite <- (qsum_perm _ _ P'). exact E.
Qed.

Section LoadTempoFurther.

Variable world : Type.
Variable np_loadtxt : string -> M world (list Q).

Local Abbreviation load_tempo := (load_tempo world np_loadtxt).
Local Abbreviation load_values := (load_values world np_loadtxt).

(** X7: the tempi returned are the input values above [split_value]:
    without [sort] the first [max_len] of them in input order, with
    [sort] and no [max_len] a rearrangement of all of them. *)
Theorem load_tempo_returned_tempi
    values split_value sort norm_strengths max_len w vals w1 out w' :
  load_values values w = (Ok vals, w1) ->
  load_tempo values split_value sort norm_strengths max_len w = (Ok out, w') ->
  (sort = false -> map fst out = slice_to max_len (tempi_of split_value vals)) /\
  (max_len = None -> Permutation (map fst out) (tempi_of split_value vals)).
Proof.
  intros Hv H.
  destruct (load_tempo_ok_inv _ _ _ _ _ _ _ _ _ _ H)
    as (qs & Hv' & Ht & Hg & Hm & Hc & Hl & ->).
  rewrite Hv in Hv'. inversion Hv'; subst vals w1. clear Hv'.
  rewrite Ht.
  set (tq := filter (fun q => Qltb split_value q) qs) in *.
  set (gq := filter (fun q => Qle_bool q split_value) qs) in *.
  assert (Hl' : length (map Fin tq) =
                length (final_strengths norm_strengths (map Fin tq) (map Fin gq)))
    by (rewrite length_map; exact Hl).
  split.
  - intros ->. unfold ordered_rows.
    rewrite map_slice_to, map_fst_combine by exact Hl'. reflexivity.
  - intros ->. cbn [slice_to]. destruct sort.
    + eapply Permutation_trans;
        [apply Permutation_map, ordered_rows_perm, Hl'|].
      rewrite map_fst_combine by exact Hl'. apply Permutation_refl.
    + unfold ordered_rows. rewrite map_fst_combine by exact Hl'.
      apply Permutation_refl.
Qed.

(** X8: with [max_len = m] at most [m] rows are returned: as many as
    there are tempi, cut to [m]. *)
Theorem load_tempo_at_most_max_len
    values split_value sort norm_strengths m w vals w1 out w' :
  load_values values w = (Ok vals, w1) ->
  load_tempo values split_value sort norm_strengths (Some m) w = (Ok out, w') ->
  length out = Nat.min (Z.to_nat m) (length (tempi_of split_value vals)) /\
  (Z.of_nat (length out) <= m)%Z.
Proof.
  intros Hv H.
  destruct (load_tempo_ok_inv _ _ _ _ _ _ _ _ _ _ H)
    as (qs & Hv' & Ht & Hg & Hm & Hc & Hl & ->).
  rewrite Hv in Hv'. inversion Hv'; subst vals w1. clear Hv'.
  rewrite Ht.
  assert (M1 : (1 <= m)%Z) by (unfold max_len_invalid in Hm; apply Z.ltb_ge in Hm; lia).
  assert (E : length (slice_to (Some m)
                (ordered_rows sort
                   (map Fin (filter (fun q => Qltb split_value q) qs))
                   (final_strengths norm_strengths
                      (map Fin (filter (fun q => Qltb split_value q) qs))
                      (map Fin (filter (fun q => Qle_bool q split_value) qs))))) =
              Nat.min (Z.to_nat m)
                (length (map Fin (filter (fun q => Qltb split_value q) qs)))).
  { rewrite length_slice_to_some by exact M1.
    rewrite length_ordered_rows; [reflexivity|].
    rewrite length_map. exact Hl. }
  split; [exact E|]. rewrite E. lia.
Qed.

(** X9: strengths given in full are returned as they are: with as
    many strengths as tempi, a sum that is not zero and neither
    [norm_strengths] nor [sort], the rows pair the tempi with the given
    strengths in input order. *)
Theorem load_tempo_keeps_given_strengths
    values split_value max_len w vals w1 :
  max_len_invalid max_len = false ->
  load_values values w = (Ok vals, w1) ->
  let tempi := tempi_of split_value vals in
  let given := strengths_of split_value vals in
  length given = length tempi ->
  feqb (np_sum given) (Fin 0) = false ->
  load_tempo values split_value false false max_len w =
  (Ok (slice_to max_len (combine tempi given)), w1).
Proof.
  intros Hm Hv tempi given Hlen Hnz.
  rewrite load_tempo_stages, Hm, Hv. cbv zeta. fold tempi. fold given.
  assert (C : completes tempi given = false)
    by (unfold completes; rewrite Hlen; apply Z.eqb_neq; lia).
  assert (F : final_strengths false tempi given = given)
    by (unfold final_strengths, completed; rewrite C, Hnz; reflexivity).
  rewrite C, F. cbn [andb]. rewrite <- Hlen, Nat.eqb_refl. reflexivity.
Qed.

(** X10: when the given strengths do not sum to zero and their number
    is neither that of the tempi nor one less, the call raises the
    length assertion, whatever the flags. *)
Theorem load_tempo_length_mismatch
    values split_value sort norm_strengths max_len w vals w1 :
  max_len_invalid max_len = false ->
  load_values values w = (Ok vals, w1) ->
  let tempi := tempi_of split_value vals in
  let given := strengths_of split_value vals in
  feqb (np_sum given) (Fin 0) = false ->
  length given <> length tempi ->
  S (length given) <> length tempi ->
  load_tempo values split_value sort norm_strengths max_len w =
  (Raise (AssertionError "tempi and strengths must have same length"), w1).
Proof.
  intros Hm Hv tempi given Hnz H1 H2.
  rewrite load_tempo_stages, Hm, Hv. cbv zeta. fold tempi. fold given.
  assert (C : completes tempi given = false)
    by (unfold completes; apply Z.eqb_neq; lia).
  assert (F : length (final_strengths norm_strengths tempi given) = length given).
  { unfold final_strengths, completed. rewrite C, Hnz.
    destruct norm_strengths; [apply length_map|reflexivity]. }
  rewrite C, F. cbn [andb].
  replace (length tempi =? length given)%nat with false
    by (symmetry; apply Nat.eqb_neq; auto).
  reflexivity.
Qed.

(** X11: when the given strengths sum to zero (none given, all zero,
    or cancelling) they are discarded: unless the completion finds a
    negative one, every tempo gets the strength [1 / n] for [n] tempi,
    also when the number of given strengths fits no format. *)
Theorem load_tempo_uniform_strengths
    values split_value sort max_len w vals w1 :
  max_len_invalid max_len = false ->
  load_values values w = (Ok vals, w1) ->
  let tempi := tempi_of split_value vals in
  let given := strengths_of split_value vals in
  feqb (np_sum given) (Fin 0) = true ->
  ((Z.of_nat (length tempi) - Z.of_nat (length given) = 1)%Z ->
   has_negative (given ++ [fsub (Fin 1) (np_sum given)]) = false) ->
  exists out,
    load_tempo values split_value sort false max_len w = (Ok out, w1) /\
    length out = length (slice_to max_len tempi) /\
    Forall (fun r => snd r = Fin (1 / inject_Z (Z.of_nat (length tempi)))) out.
Proof.
  intros Hm Hv tempi given Hz Hneg.
  destruct (load_values_fin _ _ _ _ _ _ Hv) as (qs & ->).
  unfold tempi, given in *. clear tempi given.
  rewrite tempi_of_fin, strengths_of_fin in *.
  set (tq := filter (fun q => Qltb split_value q) qs) in *.
  set (gq := filter (fun q => Qle_bool q split_value) qs) in *.
  rewrite np_sum_fin in Hz. cbn [feqb] in Hz.
  assert (F : final_strengths false (map Fin tq) (map Fin gq) =
              map (fun _ => Fin (1 / inject_Z (Z.of_nat (length tq)))) tq)
    by (rewrite final_strengths_fin, Hz; reflexivity).
  assert (Hl : length (map Fin tq) =
               length (final_strengths false (map Fin tq) (map Fin gq)))
    by (rewrite F, !length_map; reflexivity).
  assert (C : completes (map Fin tq) (map Fin gq)
              && has_negative (completed (map Fin tq) (map Fin gq)) = false).
  { unfold completed. destruct (completes (map Fin tq) (map Fin gq)) eqn:C;
      [|reflexivity].
    cbn [andb]. apply Hneg. apply Z.eqb_eq. exact C. }
  eexists. split; [|split].
  - rewrite load_tempo_stages, Hm, Hv. cbv zeta.
    rewrite tempi_of_fin, strengths_of_fin. fold tq. fold gq.
    rewrite C, Hl, Nat.eqb_refl. reflexivity.
  - apply length_slice_to, length_ordered_rows, Hl.
  - apply Forall_slice_to.
    apply (Forall_map snd
             (fun s => s = Fin (1 / inject_Z (Z.of_nat (length (map Fin tq)))))).
    eapply Permutation_Forall;
      [apply Permutation_sym, ordered_rows_strengths, Hl|].
    rewrite F, length_map. apply Forall_map, Forall_forall. reflexivity.
Qed.

(** X12: in the relative-strength format (one strength less than
    tempi) without [norm_strengths], the strengths of a result that is
    not cut sum to 1, whether they were completed or made uniform. *)
Theorem load_tempo_completed_sum
    values split_value sort max_len w vals w1 out w' :
  load_values values w = (Ok vals, w1) ->
  load_tempo values split_value sort false max_len w = (Ok out, w') ->
  let tempi := tempi_of split_value vals in
  let given := strengths_of split_value vals in
  length tempi = S (length given) ->
  length out = length tempi ->
  sums_to_one (map snd out) = true.
Proof.
  intros Hv H tempi given.
  destruct (load_tempo_ok_inv _ _ _ _ _ _ _ _ _ _ H)
    as (qs & Hv' & Ht & Hg & Hm & Hc & Hl & Hout).
  rewrite Hv in Hv'. inversion Hv'; subst vals w1. clear Hv'.
  unfold tempi, given. rewrite Ht, Hg. clear tempi given Ht Hg.
  set (tq := filter (fun q => Qltb split_value q) qs) in *.
  set (gq := filter (fun q => Qle_bool q split_value) qs) in *.
  rewrite !length_map. intros Hone Hall.
  assert (Hl' : length (map Fin tq) =
                length (final_strengths false (map Fin tq) (map Fin gq)))
    by (rewrite length_map; exact Hl).
  assert (Hwhole : out = ordered_rows sort (map Fin tq)
                           (final_strengths false (map Fin tq) (map Fin gq))).
  { subst out. apply slice_to_whole.
    rewrite Hall. rewrite length_ordered_rows by exact Hl'.
    symmetry. apply length_map. }
  pose proof (ordered_rows_strengths sort _ _ Hl') as P.
  rewrite <- Hwhole in P. rewrite final_strengths_fin in P.
  assert (C : completes (map Fin tq) (map Fin gq) = true)
    by (unfold completes; rewrite !length_map; apply Z.eqb_eq; lia).
  rewrite C in P.
  destruct (Qeq_bool (fold_left Qplus gq 0) 0).
  - rewrite <- (map_map (fun _ => 1 / inject_Z (Z.of_nat (length tq))) Fin) in P.
    apply (sums_to_one_perm _ _ P).
    rewrite qsum_constant.
    assert (N : 0 < inject_Z (Z.of_nat (length tq)))
      by (apply inject_nat_pos; lia).
    field. lra.
  - apply (sums_to_one_perm _ _ P).
    rewrite fold_left_app. cbn [fold_left]. ring.
Qed.

(** X13: the only errors of [load_tempo]: the [max_len] check (nothing
    read), whatever [np.loadtxt] raised for a file source, and the two
    assertions. *)
Theorem load_tempo_errors
    values split_value sort norm_strengths max_len w e w' :
  load_tempo values split_value sort norm_strengths max_len w = (Raise e, w') ->
  (e = ValueError "`max_len` must be greater or equal to 1" /\
   max_len_invalid max_len = true /\ w' = w) \/
  (exists name, values = FromFile name /\ np_loadtxt name w = (Raise e, w')) \/
  e = AssertionError "strengths must be positive" \/
  e = AssertionError "tempi and strengths must have same length".
Proof.
  rewrite load_tempo_stages.
  destruct (max_len_invalid max_len).
  - intro H. inversion H. left. auto.
  - destruct (load_values values w) as [[vals|e0] w1] eqn:Hv.
    + cbv zeta.
      destruct (completes _ _ && has_negative _);
        [intro H; inversion H; auto|].
      destruct (negb _); intro H; inversion H. auto.
    + intro H. inversion H; subst. right. left.
      destruct values as [l|name]; [discriminate|].
      exists name. split; [reflexivity|].
      unfold load_values, bind in Hv.
      destruct (np_loadtxt name w) as [[l|e1] w2]; [discriminate|].
      inversion Hv. reflexivity.
Qed.

End LoadTempoFurther.

(* ------------------------------------------------------------------ *)
(** ** Properties of the loaders *)

Lemma subseq_refl {A : Type} (l : list A) : subseq l l.
Proof. induction l; constructor; assumption. Qed.

Lemma subseq_map_filter {A B : Type} (f : A -> B) (p : A -> bool) l :
  subseq (map f (filter p l)) (map f l).
Proof.
  induction l as [|x l IH]; simpl; [constructor|].
  destruct (p x); simpl; constructor; exact IH.
Qed.

Lemma select_by_mask {A : Type} (p : A -> bool) (l : list A) :
  map fst (filter snd (combine l (map p l))) = filter p l.
Proof.
  induction l as [|x l IH]; simpl; [reflexivity|].
  destruct (p x); simpl; rewrite IH; reflexivity.
Qed.

Section ColumnFacts.

Variable world : Type.

(** A column every row reaches is read without error. *)
Lemma column_reached rows j (w : world) :
  Forall (fun r : list npfloat => (j < length r)%nat) rows ->
  column world rows j w = (Ok (map (fun r => nth j r NaN) rows), w).
Proof.
  induction 1 as [|r rows Hr _ IH]; [reflexivity|].
  cbn [column map]. destruct (nth_error r j) as [x|] eqn:E.
  - unfold bind. rewrite IH. unfold ret.
    rewrite (nth_error_nth _ _ NaN E). reflexivity.
  - apply nth_error_None in E. lia.
Qed.

(** A column some row does not reach raises. *)
Lemma column_missing rows j (w : world) :
  Exists (fun r : list npfloat => (length r <= j)%nat) rows ->
  column world rows j w = (Raise (IndexError "index out of bounds"), w).
Proof.
  induction 1 as [r rows Hr | r rows _ IH]; cbn [column].
  - apply nth_error_None in Hr. rewrite Hr. reflexivity.
  - destruct (nth_error r j); [|reflexivity].
    unfold bind. rewrite IH. reflexivity.
Qed.

End ColumnFacts.

Section LoaderFacts.

Variable world : Type.
Variable np_loadtxt_nd : nat -> string -> M world array_like.

Local Abbreviation loaded_array := (loaded_array world np_loadtxt_nd).
Local Abbreviation load_events := (load_events world np_loadtxt_nd).
Local Abbreviation load_onsets := (load_onsets world np_loadtxt_nd).
Local Abbreviation load_beats := (load_beats world np_loadtxt_nd).

Lemma load_onsets_stages values w :
  load_onsets values w =
  match loaded_array values w with
  | (Raise e, w') => (Raise e, w')
  | (Ok a, w') =>
      if (1 <? ndarray_ndim a)%Z
      then match column_of world a 0 w' with
           | (Ok times, w'') => (Ok (Arr1 times), w'')
           | (Raise e, w'') => (Raise e, w'')
           end
      else (Ok a, w')
  end.
Proof.
  change (load_onsets values w) with
    (bind (loaded_array values)
       (fun a => if (1 <? ndarray_ndim a)%Z
                 then bind (column_of world a 0) (fun times => ret (Arr1 times))
                 else ret a) w).
  unfold bind at 1.
  destruct (loaded_array values w) as [[a|e] w']; [|reflexivity].
  destruct (1 <? ndarray_ndim a)%Z; [|reflexivity].
  unfold bind, ret. destruct (column_of world a 0 w') as [[t|e] w'']; reflexivity.
Qed.

Lemma load_beats_stages values downbeats w :
  load_beats values downbeats w =
  match loaded_array values w with
  | (Raise e, w') => (Raise e, w')
  | (Ok a, w') =>
      if (1 <? ndarray_ndim a)%Z
      then
        if downbeats
        then
          match column_of world a 1 w' with
          | (Raise e, w'') => (Raise e, w'')
          | (Ok numbers, w'') =>
              match column_of world
                      (select_rows a (map (fun n => feqb n (Fin 1)) numbers))
                      0 w'' with
              | (Ok times, w3) => (Ok (Arr1 times), w3)
              | (Raise e, w3) => (Raise e, w3)
              end
          end
        else
          match column_of world a 0 w' with
          | (Ok times, w'') => (Ok (Arr1 times), w'')
          | (Raise e, w'') => (Raise e, w'')
          end
      else (Ok a, w')
  end.
Proof.
  change (load_beats values downbeats w) with
    (bind (loaded_array values)
       (fun a =>
          if (1 <? ndarray_ndim a)%Z
          then
            if downbeats
            then
              bind (column_of world a 1)
                (fun numbers =>
                   bind (column_of world
                           (select_rows a (map (fun n => feqb n (Fin 1)) numbers)) 0)
                     (fun times => ret (Arr1 times)))
            else bind (column_of world a 0) (fun times => ret (Arr1 times))
          else ret a) w).
  unfold bind at 1.
  destruct (loaded_array values w) as [[a|e] w']; [|reflexivity].
  destruct (1 <? ndarray_ndim a)%Z; [|reflexivity].
  destruct downbeats; unfold bind, ret.
  - destruct (column_of world a 1 w') as [[n|e] w'']; [|reflexivity].
    destruct (column_of world _ 0 w'') as [[t|e] w3]; reflexivity.
  - destruct (column_of world a 0 w') as [[t|e] w'']; reflexivity.
Qed.

(** X14: [load_beats] without [downbeats] is [load_onsets]. *)
Theorem load_beats_as_onsets values w :
  load_beats values false w = load_onsets values w.
Proof. rewrite load_beats_stages, load_onsets_stages. reflexivity. Qed.

Lemma downbeats_selected values w rows w' :
  loaded_array values w = (Ok (Arr2 rows), w') ->
  Forall (fun r => (2 <= length r)%nat) rows ->
  load_beats values true w =
  (Ok (Arr1 (map (fun r => nth 0 r NaN)
               (filter (fun r => feqb (nth 1 r NaN) (Fin 1)) rows))), w').
Proof.
  intros Ha F. rewrite load_beats_stages, Ha. cbn [ndarray_ndim Z.ltb Z.compare column_of].
  rewrite column_reached
    by (eapply Forall_impl; [|exact F]; intros r Hr; cbv beta in *; lia).
  rewrite map_map. cbn [select_rows column_of].
  rewrite (select_by_mask (fun r => feqb (nth 1 r NaN) (Fin 1)) rows).
  rewrite column_reached; [reflexivity|].
  rewrite Forall_forall in *. intros r Hr. apply filter_In in Hr as [Hr _].
  specialize (F r Hr). cbv beta in F. lia.
Qed.

(** X15: on a 2-d array whose rows have a beat number, [downbeats=True]
    returns the times (first entries) of exactly the rows whose second
    entry equals 1, in their order. *)
Theorem load_beats_downbeats values w rows w' :
  loaded_array values w = (Ok (Arr2 rows), w') ->
  Forall (fun r => (2 <= length r)%nat) rows ->
  load_beats values true w =
  (Ok (Arr1 (map (fun r => nth 0 r NaN)
               (filter (fun r => feqb (nth 1 r NaN) (Fin 1)) rows))), w').
Proof. exact (downbeats_selected values w rows w'). Qed.

(** X16: the downbeats are beats: what [downbeats=True] returns is what
    [downbeats=False] returns with some times left out. *)
Theorem downbeats_are_among_beats values w rows w' :
  loaded_array values w = (Ok (Arr2 rows), w') ->
  Forall (fun r => (2 <= length r)%nat) rows ->
  exists beats downs,
    load_beats values false w = (Ok (Arr1 beats), w') /\
    load_beats values true w = (Ok (Arr1 downs), w') /\
    subseq downs beats.
Proof.
  intros Ha F.
  exists (map (fun r => nth 0 r NaN) rows).
  exists (map (fun r => nth 0 r NaN)
            (filter (fun r => feqb (nth 1 r NaN) (Fin 1)) rows)).
  split; [|split].
  - rewrite load_beats_stages, Ha. cbn [ndarray_ndim Z.ltb Z.compare column_of].
    rewrite column_reached; [reflexivity|].
    eapply Forall_impl; [|exact F]. intros r Hr. cbv beta in *. lia.
  - apply downbeats_selected; assumption.
  - apply subseq_map_filter.
Qed.

(** X17: on an array of fewer than two dimensions (beat times without
    numbers, or no values at all) the [downbeats] flag has no effect:
    the array is returned whole. *)
Theorem load_beats_flat values downbeats w a w' :
  loaded_array values w = (Ok a, w') ->
  (ndarray_ndim a <= 1)%Z ->
  load_beats values downbeats w = (Ok a, w').
Proof.
  intros Ha Hn. rewrite load_beats_stages, Ha.
  replace (1 <? ndarray_ndim a)%Z with false
    by (symmetry; apply Z.ltb_ge; exact Hn).
  reflexivity.
Qed.

(** X18: a 2-d array with a row that has no second entry makes
    [downbeats=True] raise [IndexError]. *)
Theorem load_beats_no_beat_numbers values w rows w' :
  loaded_array values w = (Ok (Arr2 rows), w') ->
  Exists (fun r => (length r < 2)%nat) rows ->
  load_beats values true w = (Raise (IndexError "index out of bounds"), w').
Proof.
  intros Ha E. rewrite load_beats_stages, Ha.
  cbn [ndarray_ndim Z.ltb Z.compare column_of].
  rewrite column_missing; [reflexivity|].
  eapply Exists_impl; [|exact E]. intros r Hr. cbv beta in *. lia.
Qed.

(** X19: further columns are ignored: a 2-d array held in memory loads
    as the 1-d array of its first column. *)
Theorem load_onsets_first_column rows w :
  Forall (fun r : list Q => (1 <= length r)%nat) rows ->
  load_onsets (Values (Mat rows)) w =
  load_onsets (Values (Vec (map (fun r => nth 0 r 0) rows))) w.
Proof.
  intro F. rewrite !load_onsets_stages. unfold loaded_array, ret.
  cbn [np_array_ndmin1 ndarray_ndim Z.ltb Z.compare column_of].
  rewrite column_reached.
  - rewrite !map_map. change (1 <? 2)%Z with true. change (1 <? 1)%Z with false.
    cbv iota. do 3 f_equal. apply map_ext_in. intros r Hr.
    rewrite Forall_forall in F. specialize (F r Hr).
    destruct r; [simpl in F; lia|reflexivity].
  - apply Forall_map. eapply Forall_impl; [|exact F].
    intros r Hr. cbv beta in *. rewrite length_map. lia.
Qed.

(** X20: [load_events] returns one time for every row [np.loadtxt]
    found, the first entry of the row, whatever else the row holds. *)
Theorem load_events_first_column filename w rows w' :
  np_loadtxt_nd 2 filename w = (Ok (Mat rows), w') ->
  Forall (fun r : list Q => (1 <= length r)%nat) rows ->
  load_events filename w =
  (Ok (Arr1 (map Fin (map (fun r => nth 0 r 0) rows))), w').
Proof.
  intros Hl F. unfold load_events. unfold bind at 1 2. rewrite Hl.
  unfold ret at 1. cbn [np_asarray column_of]. unfold bind.
  rewrite column_reached.
  - unfold ret. rewrite !map_map. do 3 f_equal. apply map_ext_in. intros r Hr.
    rewrite Forall_forall in F. specialize (F r Hr).
    destruct r; [simpl in F; lia|reflexivity].
  - apply Forall_map. eapply Forall_impl; [|exact F].
    intros r Hr. cbv beta in *. rewrite length_map. lia.
Qed.

End LoaderFacts.

(* ------------------------------------------------------------------ *)
(** ** Keyword arguments of [write_beats] *)

Section WriteBeatsFacts.

Variable world : Type.
Variable np_savetxt : string -> ndarray -> fmt_spec -> string -> string -> M world unit.

Local Abbreviation write_beats := (write_beats world np_savetxt).

Lemma bind_kwargs_rejects kwargs : forall delimiter header,
  Exists (fun kv : string * string =>
            fst kv <> "delimiter" /\ fst kv <> "header") kwargs ->
  exists k, bind_kwargs kwargs delimiter header = Raise (TypeError k).
Proof.
  induction kwargs as [|[k v] kwargs IH]; intros d h E.
  - inversion E.
  - cbn [bind_kwargs].
    destruct (k =? "delimiter")%string eqn:Kd.
    + apply IH. inversion E as [? ? [H _]|]; subst; [|assumption].
      apply String.eqb_eq in Kd. contradiction.
    + destruct (k =? "header")%string eqn:Kh.
      * apply IH. inversion E as [? ? [_ H]|]; subst; [|assumption].
        apply String.eqb_eq in Kh. contradiction.
      * exists k. reflexivity.
Qed.

(** X21: a keyword argument other than [delimiter] and [header] (for
    instance [fmt], which [write_beats] sets itself) makes [write_beats]
    raise [TypeError] before anything is written. *)
Theorem write_beats_rejects_keyword beats filename kwargs w :
  Exists (fun kv : string * string =>
            fst kv <> "delimiter" /\ fst kv <> "header") kwargs ->
  exists k, write_beats beats filename kwargs w = (Raise (TypeError k), w).
Proof.
  intro E. destruct (bind_kwargs_rejects kwargs tab "" E) as (k & Hk).
  exists k. unfold write_beats. rewrite Hk. reflexivity.
Qed.

End WriteBeatsFacts.

(* ------------------------------------------------------------------ *)
(** ** Further runs on concrete inputs *)

Lemma mirex_reports_lower_tempo_first_witness :
  fleb (Fin 100) (Fin 120) = true.
Proof.
  eapply (mirex_reports_lower_tempo_first Log.world Log.np_savetxt
            (Mat [[120; 3 # 5]; [100; 2 # 5]]) "out" Log.empty).
  cbv. reflexivity.
Defined.

Lemma write_tempo_returns_written_line_witness :
  Log.np_savetxt "out" (Arr2 [[Fin 60; Fin (60 * 2); Fin 1]]) tempo_fmt " " ""
    Log.empty =
  (Ok tt,
   Log.log (Log.Savetxt "out" (Arr2 [[Fin 60; Fin (60 * 2); Fin 1]])
              tempo_fmt " " "") Log.empty).
Proof.
  apply (write_tempo_returns_written_line Log.world Log.np_savetxt
           (Mat [[60; 3 # 5]]) "out" false).
  reflexivity.
Defined.

Lemma write_tempo_missing_column_witness :
  Log.write_tempo (Mat [[120]; [100]]) "out" false Log.empty =
  (Raise (IndexError "index out of bounds"), Log.empty).
Proof.
  apply (write_tempo_missing_column Log.world Log.np_savetxt).
  right. exists [Fin 120], [Fin 100], [].
  split; [reflexivity|split; [repeat constructor|simpl; lia]].
Defined.

Lemma load_tempo_returned_tempi_witness :
  map fst [(Fin 100, Fin (1 # 4))] =
  slice_to (Some 1%Z) (tempi_of 1 (map Fin [100; 120; 1 # 4; 3 # 4])).
Proof.
  apply (load_tempo_returned_tempi Log.world Log.np_loadtxt
           (InMemory [100; 120; 1 # 4; 3 # 4]) 1 false false (Some 1%Z)
           Log.empty (map Fin [100; 120; 1 # 4; 3 # 4]) Log.empty
           [(Fin 100, Fin (1 # 4))] Log.empty);
    reflexivity.
Defined.

Lemma load_tempo_at_most_max_len_witness :
  length [(Fin 100, Fin (1 # 4))] =
  Nat.min (Z.to_nat 1) (length (tempi_of 1 (map Fin [100; 120; 1 # 4; 3 # 4]))) /\
  (Z.of_nat (length [(Fin 100, Fin (1 # 4))]) <= 1)%Z.
Proof.
  apply (load_tempo_at_most_max_len Log.world Log.np_loadtxt
           (InMemory [100; 120; 1 # 4; 3 # 4]) 1 false false 1%Z
           Log.empty (map Fin [100; 120; 1 # 4; 3 # 4]) Log.empty
           [(Fin 100, Fin (1 # 4))] Log.empty);
    reflexivity.
Defined.

Lemma load_tempo_keeps_given_strengths_witness :
  Log.load_tempo (InMemory [100; 120; 1 # 4; 3 # 4]) 1 false false None Log.empty =
  (Ok [(Fin 100, Fin (1 # 4)); (Fin 120, Fin (3 # 4))], Log.empty).
Proof.
  apply (load_tempo_keeps_given_strengths Log.world Log.np_loadtxt
           (InMemory [100; 120; 1 # 4; 3 # 4]) 1 None Log.empty
           (map Fin [100; 120; 1 # 4; 3 # 4]) Log.empty);
    reflexivity.
Defined.

Lemma load_tempo_length_mismatch_witness :
  Log.load_tempo (InMemory [120; 1 # 2; 3 # 10]) 1 false false None Log.empty =
  (Raise (AssertionError "tempi and strengths must have same length"), Log.empty).
Proof.
  apply (load_tempo_length_mismatch Log.world Log.np_loadtxt
           (InMemory [120; 1 # 2; 3 # 10]) 1 false false None Log.empty
           (map Fin [120; 1 # 2; 3 # 10]) Log.empty);
    try reflexivity; vm_compute; discriminate.
Defined.

Lemma load_tempo_uniform_strengths_witness :
  exists out,
    Log.load_tempo (InMemory [120; 100; 1 # 2; - (1 # 2)]) 1 false false None
      Log.empty = (Ok out, Log.empty) /\
    length out =
    length (slice_to None (tempi_of 1 (map Fin [120; 100; 1 # 2; - (1 # 2)]))) /\
    Forall
      (fun r =>
         snd r =
         Fin (1 / inject_Z
                    (Z.of_nat
                       (length (tempi_of 1 (map Fin [120; 100; 1 # 2; - (1 # 2)]))))))
      out.
Proof.
  apply (load_tempo_uniform_strengths Log.world Log.np_loadtxt
           (InMemory [120; 100; 1 # 2; - (1 # 2)]) 1 false None Log.empty
           (map Fin [120; 100; 1 # 2; - (1 # 2)]) Log.empty);
    try reflexivity.
  vm_compute. discriminate.
Defined.

Lemma load_tempo_completed_sum_witness :
  sums_to_one
    (map snd [(Fin 120, Fin (7 # 10)); (Fin 60, Fin (1 - (0 + (7 # 10))))]) = true.
Proof.
  pose proof (load_tempo_completed_sum Log.world Log.np_loadtxt
                (InMemory [120; 60; 7 # 10]) 1 true None Log.empty
                (map Fin [120; 60; 7 # 10]) Log.empty
                [(Fin 120, Fin (7 # 10)); (Fin 60, Fin (1 - (0 + (7 # 10))))]
                Log.empty eq_refl eq_refl) as H.
  cbv zeta in H. apply H; reflexivity.
Defined.

Lemma load_tempo_errors_witness :
  (AssertionError "tempi and strengths must have same length" =
   ValueError "`max_len` must be greater or equal to 1" /\
   max_len_invalid None = true /\ Log.empty = Log.empty) \/
  (exists name,
      InMemory [120; 1 # 2; 3 # 10] = FromFile name /\
      Log.np_loadtxt name Log.empty =
      (Raise (AssertionError "tempi and strengths must have same length"),
       Log.empty)) \/
  AssertionError "tempi and strengths must have same length" =
  AssertionError "strengths must be positive" \/
  AssertionError "tempi and strengths must have same length" =
  AssertionError "tempi and strengths must have same length".
Proof.
  apply (load_tempo_errors Log.world Log.np_loadtxt
           (InMemory [120; 1 # 2; 3 # 10]) 1 false false None Log.empty).
  reflexivity.
Defined.

Lemma load_beats_downbeats_witness :
  Disk.load_beats (Values (Mat [[1; 1]; [3 # 2; 2]; [2; 1]])) true [] =
  (Ok (Arr1 [Fin 1; Fin 2]), []).
Proof.
  apply (load_beats_downbeats Disk.world Disk.np_loadtxt_nd
           (Values (Mat [[1; 1]; [3 # 2; 2]; [2; 1]])) []
           (map (map Fin) [[1; 1]; [3 # 2; 2]; [2; 1]]) []);
    [reflexivity | repeat constructor].
Defined.

Lemma downbeats_are_among_beats_witness :
  exists beats downs,
    Disk.load_beats (Values (Mat [[1; 1]; [3 # 2; 2]; [2; 1]])) false [] =
    (Ok (Arr1 beats), []) /\
    Disk.load_beats (Values (Mat [[1; 1]; [3 # 2; 2]; [2; 1]])) true [] =
    (Ok (Arr1 downs), []) /\
    subseq downs beats.
Proof.
  apply (downbeats_are_among_beats Disk.world Disk.np_loadtxt_nd
           (Values (Mat [[1; 1]; [3 # 2; 2]; [2; 1]])) []
           (map (map Fin) [[1; 1]; [3 # 2; 2]; [2; 1]]) []);
    [reflexivity | repeat constructor].
Defined.

Lemma load_beats_flat_witness :
  Disk.load_beats (File "beats.txt") true [("beats.txt", Vec [1; 2; 3])] =
  (Ok (Arr1 [Fin 1; Fin 2; Fin 3]), [("beats.txt", Vec [1; 2; 3])]).
Proof.
  apply (load_beats_flat Disk.world Disk.np_loadtxt_nd);
    [reflexivity | simpl; lia].
Defined.

Lemma load_beats_no_beat_numbers_witness :
  Disk.load_beats (Values (Mat [[1]; [2]])) true [] =
  (Raise (IndexError "index out of bounds"), []).
Proof.
  apply (load_beats_no_beat_numbers Disk.world Disk.np_loadtxt_nd
           (Values (Mat [[1]; [2]])) [] (map (map Fin) [[1]; [2]]) []);
    [reflexivity | constructor; simpl; lia].
Defined.

Lemma load_onsets_first_column_witness :
  Disk.load_onsets (Values (Mat [[1; 5]; [2; 6]])) [] =
  Disk.load_onsets (Values (Vec (map (fun r => nth 0 r 0) [[1; 5]; [2; 6]]))) [].
Proof.
  apply (load_onsets_first_column Disk.world Disk.np_loadtxt_nd).
  repeat constructor.
Defined.

Lemma load_events_first_column_witness :
  Disk.load_events "events.txt" [("events.txt", Mat [[1; 5]; [2; 6]])] =
  (Ok (Arr1 (map Fin (map (fun r => nth 0 r 0) [[1; 5]; [2; 6]]))),
   [("events.txt", Mat [[1; 5]; [2; 6]])]).
Proof.
  apply (load_events_first_column Disk.world Disk.np_loadtxt_nd);
    [reflexivity | repeat constructor].
Defined.

Lemma write_beats_rejects_keyword_witness :
  exists k,
    Log.write_beats (Vec [1; 2]) "beats.txt" [("fmt", "%d")] Log.empty =
    (Raise (TypeError k), Log.empty).
Proof.
  apply (write_beats_rejects_keyword Log.world Log.np_savetxt).
  constructor. split; discriminate.
Defined.
